(** * AsyncQueue: a bounded-concurrency task runner with retries

    A shallow embedding of [AsyncQueue.js]: the retry helper
    [runTaskWithRetry], the class [AsyncQueue] (constructor, [run],
    [_processNext], [_checkCompletion], [cancelAll]) and the part of the
    JavaScript run-time the class relies on (promises that settle later,
    timers, the abort signal and its listeners).

    Layout:
    - [JS]       the values the code handles: thrown values, numbers as far
                 as the constructor inspects them;
    - [Retry]    [runTaskWithRetry], once in direct style (a total function
                 over an oracle for the abort signal) and once cut at its
                 [await]s, the form the event loop interleaves;
    - [Queue]    the object's fields, its methods, the event loop as an
                 executable step function over explicit events, and the
                 invariant of a run;
    - [Examples] concrete tasks, queues and event sequences;
    - the lemmas: the two forms of the retry helper agree, the invariant
      holds in every state of a run; then the properties of the runner. *)

From Stdlib Require Import ZArith QArith Bool Lia.
From stdpp Require Import base list strings.

Local Open Scope Z_scope.

(** ** JavaScript values *)

Module JS.

(** Values a task resolves with or throws.  An [Error] object is modelled by
    its [message]; object identity is not modelled. *)
Inductive value : Type :=
  | VNull
  | VUndefined
  | VBool (b : bool)
  | VString (s : string)
  | VError (message : string).

#[global] Instance value_eq_dec : EqDecision value.
Proof. solve_decision. Defined.

(** [v instanceof Error] *)
Definition instanceof_Error (v : value) : bool :=
  match v with
  | VError _ => true
  | _ => false
  end.

(** [String(v)] *)
Definition String_ (v : value) : string :=
  match v with
  | VNull => "null"
  | VUndefined => "undefined"
  | VBool true => "true"
  | VBool false => "false"
  | VString s => s
  | VError message => "Error: " +:+ message
  end.

(** [err instanceof Error ? err : new Error(String(err))] *)
Definition to_Error (err : value) : value :=
  if instanceof_Error err then err else VError (String_ err).

(** A JavaScript number as far as [<] and [Number.isInteger] look at it: a
    finite double is a rational, the rest are the three special values. *)
Inductive number : Type :=
  | NaN
  | PosInfinity
  | NegInfinity
  | Finite (q : Q).

(** An argument of the constructor.  For a value that is not of type number
    (a string, [undefined], a BigInt, ...) [numeric] is what the relational
    operator converts it to before it compares. *)
Inductive arg : Type :=
  | Num (n : number)
  | NotNum (numeric : number).

(** [n < 1] on numbers: false on [NaN]. *)
Definition number_lt_1 (n : number) : bool :=
  match n with
  | NaN => false
  | PosInfinity => false
  | NegInfinity => true
  | Finite q => negb (Qle_bool 1 q)
  end.

(** [x < 1] *)
Definition lt_1 (x : arg) : bool :=
  match x with
  | Num n => number_lt_1 n
  | NotNum n => number_lt_1 n
  end.

(** [Number.isInteger(x)]: false unless [x] is of type number, finite and
    without a fractional part. *)
Definition Number_isInteger (x : arg) : bool :=
  match x with
  | Num (Finite q) => (Qnum q mod Zpos (Qden q) =? 0)
  | _ => false
  end.

End JS.
Export JS.

(** ** The retry helper *)

Module Retry.

(** The record a task ends up with: [{ status: 'success', value }] or
    [{ status: 'captured', error }]. *)
Inductive result : Type :=
  | Success (value : value)
  | Captured (error : value).

#[global] Instance result_eq_dec : EqDecision result.
Proof. solve_decision. Defined.

(** How a call of an async function completes. *)
Inductive completion : Type :=
  | Return (r : result)
  | Throw (err : value).

(** How the promise of one task invocation settles.  A task function that
    throws synchronously, or returns a plain value, is seen by
    [await taskFunction()] as a rejection, respectively a fulfilment. *)
Inductive settled : Type :=
  | Resolve (v : value)
  | Reject (err : value).

(** A task is an opaque closure; all the runner observes is how its k-th
    invocation settles (k counts the calls made so far, which is the state a
    closure such as [() => { attempts++; ... }] keeps). *)
Definition task : Type := nat -> settled.

(** [new Error('Task cancelled')], line 13 *)
Definition cancelled : value := VError "Task cancelled".

(** [100 * (attempt + 1)], line 24 *)
Definition waitTime (attempt : Z) : Z := 100 * (attempt + 1).

(** *** Direct style

    [signal k] is [signal.aborted] as read in the k-th synchronous stretch of
    the call (stretch 0 runs up to the first [await], each [await] starts
    the next one).  The backoff promise is resolved by its timer only; an
    abort during the wait clears the timer, and nothing resolves the
    promise any more: the call hangs. *)

Inductive outcome : Type :=
  | Finished (c : completion) (calls : nat)
  | Hangs (calls : nat).

Section Direct.
Variable signal : nat -> bool.
Variable taskFunction : task.
Variable howManyRetries : Z.

(** Lines 17-31, from the point where [await taskFunction()] is resumed
    with [p]; [next] is the rest of the loop. *)
Definition after_await (next : Z -> value -> nat -> nat -> outcome)
    (attempt : Z) (p : settled) (calls seg : nat) : outcome :=
  match p with
  | Resolve v => Finished (Return (Success v)) calls
  | Reject err =>
      if (attempt <? howManyRetries) && negb (signal seg) then
        if signal (S seg) then Hangs calls
        else next (attempt + 1) err calls (S seg)
      else next (attempt + 1) err calls seg
  end.

(** The [for] loop of lines 10-32 with [n] iterations left, followed by
    lines 35-36.  [attempt] runs over [0 .. howManyRetries], so the loop
    is entered with [n = howManyRetries + 1] (none when that is
    negative). *)
Fixpoint for_attempts (n : nat) (attempt : Z) (theError : value)
    (calls seg : nat) : outcome :=
  match n with
  | O => Finished (Return (Captured (to_Error theError))) calls
  | S n' =>
      if signal seg then Finished (Throw cancelled) calls
      else after_await (for_attempts n') attempt
             (taskFunction calls) (S calls) (S seg)
  end.

Definition runTaskWithRetry : outcome :=
  for_attempts (Z.to_nat (howManyRetries + 1)) 0 VNull 0 0.
End Direct.

(** The signal is never aborted. *)
Definition never : nat -> bool := fun _ => false.

(** The signal is aborted while the call is in its k-th [await]. *)
Definition aborted_during (k : nat) : nat -> bool := fun seg => (k <? seg)%nat.

(** *** Cut at the awaits

    The places where a call of [runTaskWithRetry] is suspended, with the
    locals it keeps.  [Settled] is the call that has completed and whose
    promise is awaited by [_processNext]. *)
Inductive suspended : Type :=
  | AwaitTask (attempt : Z) (theError : value) (pending : settled)
  | AwaitBackoff (attempt : Z) (theError : value) (timer : option Z)
  | Settled (c : completion).

Section Steps.
Variable howManyRetries : Z.
Variable aborted : bool.
Variable taskFunction : task.

(** Lines 10-17: the loop test, the check of the signal, the call of the
    task.  Returns where the call is suspended next and the number of
    invocations made so far. *)
Definition loop_head (calls : nat) (attempt : Z) (theError : value)
    : suspended * nat :=
  if attempt <=? howManyRetries then
    if aborted then (Settled (Throw cancelled), calls)
    else (AwaitTask attempt theError (taskFunction calls), S calls)
  else (Settled (Return (Captured (to_Error theError))), calls).

(** Lines 17-31, resumed when the task's promise has settled. *)
Definition after_attempt (calls : nat) (attempt : Z) (p : settled)
    : suspended * nat :=
  match p with
  | Resolve v => (Settled (Return (Success v)), calls)
  | Reject err =>
      if (attempt <? howManyRetries) && negb aborted then
        (AwaitBackoff attempt err (Some (waitTime attempt)), calls)
      else loop_head calls (attempt + 1) err
  end.

(** Resumed when the backoff timer has fired: [attempt++] and back to the
    loop test. *)
Definition after_backoff (calls : nat) (attempt : Z) (theError : value)
    : suspended * nat :=
  loop_head calls (attempt + 1) theError.

(** What a suspended call does when an event it waits for arrives; [None]
    when it waits for nothing that can arrive. *)
Definition resume (s : suspended) (calls : nat) : option (suspended * nat) :=
  match s with
  | AwaitTask attempt _ p => Some (after_attempt calls attempt p)
  | AwaitBackoff attempt theError (Some _) =>
      Some (after_backoff calls attempt theError)
  | AwaitBackoff _ _ None => None
  | Settled _ => None
  end.
End Steps.

(** The [abort] listener of line 28: [clearTimeout(timer)]. *)
Definition on_abort (s : suspended) : suspended :=
  match s with
  | AwaitBackoff attempt theError _ => AwaitBackoff attempt theError None
  | _ => s
  end.

(** The call, up to its first suspension. *)
Definition start (howManyRetries : Z) (aborted : bool) (taskFunction : task)
    (calls : nat) : suspended * nat :=
  loop_head howManyRetries aborted taskFunction calls 0 VNull.

(** The suspended states one call on [taskFunction] can be in, with the
    value of the signal and the number of invocations made: the projection
    of the event loop on a single task. *)
Inductive reach (R : Z) (fn : task) : bool -> suspended -> nat -> Prop :=
  | reach_start :
      reach R fn false (start R false fn 0).1 (start R false fn 0).2
  | reach_resume b s calls s' calls' :
      reach R fn b s calls ->
      resume R b fn s calls = Some (s', calls') ->
      reach R fn b s' calls'
  | reach_abort b s calls :
      reach R fn b s calls ->
      reach R fn true (on_abort s) calls.

(** *** What the theorems speak about *)

(** The rest of the direct-style call from a suspension point on, [seg]
    being the stretch that runs when the call is resumed. *)
Definition continue (signal : nat -> bool) (R : Z) (fn : task)
    (s : suspended) (calls seg : nat) : outcome :=
  match s with
  | AwaitTask attempt _ p =>
      after_await signal R (for_attempts signal fn R (Z.to_nat (R - attempt)))
        attempt p calls seg
  | AwaitBackoff attempt theError (Some _) =>
      if signal seg then Hangs calls
      else for_attempts signal fn R (Z.to_nat (R - attempt)) (attempt + 1)
             theError calls seg
  | AwaitBackoff _ _ None => Hangs calls
  | Settled c => Finished c calls
  end.

(** The signal reads [l] in its first stretches. *)
Definition agrees (signal : nat -> bool) (l : list bool) : Prop :=
  forall k x, l !! k = Some x -> signal k = x.

(** The loop counter stays within the retry budget. *)
Definition in_budget (R : Z) (s : suspended) : Prop :=
  match s with
  | AwaitTask attempt _ _ => 0 <= attempt <= R
  | AwaitBackoff attempt _ _ => 0 <= attempt < R
  | Settled _ => True
  end.

(** The task fails on its first [K] invocations and succeeds with [v] on
    the next one. *)
Definition fails_then_succeeds (fn : task) (K : nat) (v : value) : Prop :=
  (forall k, (k < K)%nat -> exists err, fn k = Reject err) /\ fn K = Resolve v.

(** The task fails on every invocation. *)
Definition always_fails (fn : task) : Prop :=
  forall k, exists err, fn k = Reject err.

(** Where the error a call keeps in [theError] comes from: the initial
    [null] or a rejection of the task. *)
Definition failure_of (fn : task) (e : value) : Prop :=
  e = VNull \/ exists k, fn k = Reject e.

(** The invocations an outcome reports. *)
Definition outcome_calls (o : outcome) : nat :=
  match o with
  | Finished _ n => n
  | Hangs n => n
  end.

(** The first [n] invocations of the task have all failed. *)
Definition all_rejected (fn : task) (n : nat) : Prop :=
  forall k, (k < n)%nat -> exists err, fn k = Reject err.

(** What a suspended call knows about the invocations made so far, [n] of
    them, under the signal value [b]: the shape every state of a call has. *)
Definition shape (R : Z) (fn : task) (b : bool) (s : suspended) (n : nat)
    : Prop :=
  match s with
  | AwaitTask attempt _ p =>
      0 <= attempt <= R /\ n = S (Z.to_nat attempt) /\
      p = fn (Z.to_nat attempt) /\ all_rejected fn (Z.to_nat attempt)
  | AwaitBackoff attempt theError timer =>
      0 <= attempt < R /\ n = S (Z.to_nat attempt) /\
      fn (Z.to_nat attempt) = Reject theError /\ all_rejected fn n /\
      match timer with
      | Some w => w = waitTime attempt /\ b = false
      | None => b = true
      end
  | Settled (Return (Success v)) =>
      (1 <= n)%nat /\ Z.of_nat n <= R + 1 /\
      fn (pred n) = Resolve v /\ all_rejected fn (pred n)
  | Settled (Return (Captured e)) =>
      (n = 0%nat /\ R < 0 /\ e = to_Error VNull) \/
      ((1 <= n)%nat /\ Z.of_nat n = R + 1 /\ all_rejected fn n /\
       exists err, fn (pred n) = Reject err /\ e = to_Error err)
  | Settled (Throw err) =>
      err = cancelled /\ b = true /\ (1 <= n)%nat /\ Z.of_nat n <= R /\
      all_rejected fn n
  end.

(** The events a call in state [s] can still take before its chain has
    stored the record: a settle and a timer for every attempt left, and the
    resumption of the chain. *)
Definition cost (R : Z) (s : suspended) : nat :=
  match s with
  | AwaitTask attempt _ _ => 2 * Z.to_nat (R - attempt) + 2
  | AwaitBackoff attempt _ _ => 2 * Z.to_nat (R - attempt) + 1
  | Settled _ => 1
  end.

(** The events one task can take from its claim on. *)
Definition task_cost (R : Z) : nat := 2 * Z.to_nat R + 2.

End Retry.
Export Retry.

(** ** The queue *)

Module Queue.

(** An element of [this.results]: [null], a hole left by a write past the
    end, or a result record. *)
Inductive slot : Type :=
  | Null
  | Hole
  | Filled (r : result).

#[global] Instance slot_eq_dec : EqDecision slot.
Proof. solve_decision. Defined.

(** A call of [_processNext] suspended at line 101, with its locals
    [currentIndex] and [taskFn] and the call of [runTaskWithRetry] it
    awaits. *)
Record chain : Type := Chain {
  currentIndex : nat;
  taskFn : task;
  awaiting : suspended;
}.

(** The promise [run] returned; [this.resolveQueue] is its resolver. *)
Inductive promise : Type :=
  | NoPromise
  | Pending
  | Resolved (rs : list slot).

(** The object's fields, followed by what the run-time holds for it: the
    suspended calls, how often each task closure has been called, how the
    completed calls of [runTaskWithRetry] ended (most recent first), and the
    promise of the last [run]. *)
Record state : Type := State {
  maxAtSameTime : Z;
  retryAttempts : Z;
  abortController : option bool;
  tasks : list task;
  results : list slot;
  runningCount : Z;
  nextTaskIndex : nat;
  finishedCount : Z;
  chains : list chain;
  calls : list nat;
  completions : list (nat * completion);
  resolveQueue : promise;
}.

(** [new AsyncQueue(maxAtSameTime, retryAttempts = 3)], lines 40-56.  The
    accepted [maxAtSameTime] is an integer and is kept as one.
    [retryAttempts] is stored as given; it is taken to be whole. *)
Definition new_AsyncQueue (maxAtSameTime : arg) (retryAttempts : option Z)
    : string + state :=
  if lt_1 maxAtSameTime || negb (Number_isInteger maxAtSameTime) then
    inl "Concurrency must be a positive whole number"
  else
    match maxAtSameTime with
    | Num (Finite q) =>
        inr {| maxAtSameTime := Qnum q / Zpos (Qden q);
               retryAttempts := default 3 retryAttempts;
               abortController := None;
               tasks := [];
               results := [];
               runningCount := 0;
               nextTaskIndex := 0;
               finishedCount := 0;
               chains := [];
               calls := [];
               completions := [];
               resolveQueue := NoPromise |}
    | _ => inl "Concurrency must be a positive whole number"
    end.

(** [this.abortController.signal.aborted]; [run] installs a controller
    before anything reads the signal. *)
Definition aborted (q : state) : bool := default false (abortController q).

(** How often the closure [tasks[i]] has been called. *)
Definition invocations (q : state) (i : nat) : nat :=
  default 0%nat (calls q !! i).

(** The indices the cursor has passed and whose slot is still [null]:
    claimed, outcome not written yet. *)
Definition claimed_unwritten (q : state) : list nat :=
  filter (fun i => results q !! i = Some Null) (seq 0 (nextTaskIndex q)).

(** [a[i] = x]: a write past the end extends the array. *)
Definition array_set (i : nat) (x : slot) (a : list slot) : list slot :=
  if decide (i < length a)%nat then <[i := x]> a
  else a ++ replicate (i - length a) Hole ++ [x].

(** Calling the resolver: the first call settles the promise. *)
Definition resolve (rs : list slot) (p : promise) : promise :=
  match p with
  | Pending => Resolved rs
  | _ => p
  end.

(** [new Error('Task cancelled via cancelAll()')], line 127 *)
Definition cancelErr : value := VError "Task cancelled via cancelAll()".

(** [res === null ? { status: 'captured', error: cancelErr } : res] *)
Definition fill_cancelled (res : slot) : slot :=
  match res with
  | Null => Filled (Captured cancelErr)
  | _ => res
  end.

(** Lines 122-134 *)
Definition _checkCompletion (q : state) : state :=
  if runningCount q =? 0 then
    let results' :=
      if aborted q then fill_cancelled <$> results q else results q in
    {| maxAtSameTime := maxAtSameTime q;
       retryAttempts := retryAttempts q;
       abortController := abortController q;
       tasks := tasks q;
       results := results';
       runningCount := runningCount q;
       nextTaskIndex := nextTaskIndex q;
       finishedCount := finishedCount q;
       chains := chains q;
       calls := calls q;
       completions := completions q;
       resolveQueue := resolve results' (resolveQueue q) |}
  else q.

(** [this.tasks[i]] where there is no task: calling it throws a TypeError,
    which the [try] of [runTaskWithRetry] catches like a failure. *)
Definition not_a_function : task :=
  fun _ => Reject (VError "taskFunction is not a function").

(** Lines 88-105, up to the [await]: give up when the cursor is at the end
    or the signal is aborted, else claim the next index and start
    [runTaskWithRetry] on it, which runs up to its first suspension. *)
Definition _processNext (q : state) : state :=
  if (length (tasks q) <=? nextTaskIndex q)%nat || aborted q then
    _checkCompletion q
  else
    let currentIndex := nextTaskIndex q in
    let taskFn := default not_a_function (tasks q !! currentIndex) in
    let call :=
      start (retryAttempts q) (aborted q) taskFn (invocations q currentIndex) in
    {| maxAtSameTime := maxAtSameTime q;
       retryAttempts := retryAttempts q;
       abortController := abortController q;
       tasks := tasks q;
       results := results q;
       runningCount := runningCount q + 1;
       nextTaskIndex := S currentIndex;
       finishedCount := finishedCount q;
       chains := chains q ++ [Chain currentIndex taskFn call.1];
       calls := <[currentIndex := call.2]> (calls q);
       completions := completions q;
       resolveQueue := resolveQueue q |}.

(** The state [run] sets up before it starts the chains, lines 66-74.
    Calls of an earlier run that are still suspended stay where they
    are. *)
Definition reset (ts : list task) (q : state) : state :=
  {| maxAtSameTime := maxAtSameTime q;
     retryAttempts := retryAttempts q;
     abortController := Some false;
     tasks := ts;
     results := replicate (length ts) Null;
     runningCount := 0;
     nextTaskIndex := 0;
     finishedCount := 0;
     chains := chains q;
     calls := replicate (length ts) 0%nat;
     completions := [];
     resolveQueue := Pending |}.

(** [run(tasks)], lines 62-86.  [tasks] is a list, so the [Array.isArray]
    test passes.  The task closures are taken fresh (not called yet). *)
Definition run (ts : list task) (q : state) : state :=
  let q' := reset ts q in
  if (length ts =? 0)%nat then
    {| maxAtSameTime := maxAtSameTime q';
       retryAttempts := retryAttempts q';
       abortController := abortController q';
       tasks := tasks q';
       results := results q';
       runningCount := runningCount q';
       nextTaskIndex := nextTaskIndex q';
       finishedCount := finishedCount q';
       chains := chains q';
       calls := calls q';
       completions := completions q';
       resolveQueue := resolve [] (resolveQueue q') |}
  else
    let initialBatch := Z.min (maxAtSameTime q') (Z.of_nat (length ts)) in
    Nat.iter (Z.to_nat initialBatch) _processNext q'.

(** The listeners of the backoff waits run when the signal aborts. *)
Definition chain_on_abort (c : chain) : chain :=
  Chain (currentIndex c) (taskFn c) (on_abort (awaiting c)).

(** [cancelAll()], lines 136-140; [abort()] on a signal that is already
    aborted does nothing. *)
Definition cancelAll (q : state) : state :=
  match abortController q with
  | Some false =>
      {| maxAtSameTime := maxAtSameTime q;
         retryAttempts := retryAttempts q;
         abortController := Some true;
         tasks := tasks q;
         results := results q;
         runningCount := runningCount q;
         nextTaskIndex := nextTaskIndex q;
         finishedCount := finishedCount q;
         chains := chain_on_abort <$> chains q;
         calls := calls q;
         completions := completions q;
         resolveQueue := resolveQueue q |}
  | Some true => q
  | None => q
  end.

(** Lines 106-112: what the [try]/[catch] of [_processNext] stores. *)
Definition record_of (c : completion) : result :=
  match c with
  | Return r => r
  | Throw err => Captured (to_Error err)
  end.

(** *** The event loop *)

(** What can happen to a run: the pending promise of the task claimed at
    index [i] settles, the backoff timer of that chain fires, the chain
    is resumed with the completed call of [runTaskWithRetry], or somebody
    calls [cancelAll()].  Time is not modelled: the events may come in any
    order, which covers every schedule of the real event loop. *)
Inductive event : Type :=
  | TaskSettles (i : nat)
  | TimerFires (i : nat)
  | Resumes (i : nat)
  | CancelAll.

(** The chain that holds index [i], and the others. *)
Fixpoint take (i : nat) (l : list chain) : option (chain * list chain) :=
  match l with
  | [] => None
  | c :: l' =>
      if (currentIndex c =? i)%nat then Some (c, l')
      else
        match take i l' with
        | Some (c', rest) => Some (c', c :: rest)
        | None => None
        end
  end.

(** A chain inside [runTaskWithRetry] goes on to its next suspension. *)
Definition advance (q : state) (c : chain) (rest : list chain)
    (next : suspended * nat) : state :=
  {| maxAtSameTime := maxAtSameTime q;
     retryAttempts := retryAttempts q;
     abortController := abortController q;
     tasks := tasks q;
     results := results q;
     runningCount := runningCount q;
     nextTaskIndex := nextTaskIndex q;
     finishedCount := finishedCount q;
     chains := Chain (currentIndex c) (taskFn c) next.1 :: rest;
     calls := <[currentIndex c := next.2]> (calls q);
     completions := completions q;
     resolveQueue := resolveQueue q |}.

(** Lines 106-119: the chain stores its record, gives its slot back and
    goes for the next task. *)
Definition finish (q : state) (c : chain) (rest : list chain)
    (o : completion) : state :=
  _processNext
    {| maxAtSameTime := maxAtSameTime q;
       retryAttempts := retryAttempts q;
       abortController := abortController q;
       tasks := tasks q;
       results := array_set (currentIndex c) (Filled (record_of o)) (results q);
       runningCount := runningCount q - 1;
       nextTaskIndex := nextTaskIndex q;
       finishedCount := finishedCount q + 1;
       chains := rest;
       calls := calls q;
       completions := (currentIndex c, o) :: completions q;
       resolveQueue := resolveQueue q |}.

Definition step (ev : event) (q : state) : option state :=
  match ev with
  | CancelAll => Some (cancelAll q)
  | TaskSettles i =>
      match take i (chains q) with
      | Some (c, rest) =>
          match awaiting c with
          | AwaitTask attempt theError p =>
              Some (advance q c rest
                      (after_attempt (retryAttempts q) (aborted q) (taskFn c)
                         (invocations q i) attempt p))
          | _ => None
          end
      | None => None
      end
  | TimerFires i =>
      match take i (chains q) with
      | Some (c, rest) =>
          match awaiting c with
          | AwaitBackoff attempt theError (Some _) =>
              Some (advance q c rest
                      (after_backoff (retryAttempts q) (aborted q) (taskFn c)
                         (invocations q i) attempt theError))
          | _ => None
          end
      | None => None
      end
  | Resumes i =>
      match take i (chains q) with
      | Some (c, rest) =>
          match awaiting c with
          | Settled o => Some (finish q c rest o)
          | _ => None
          end
      | None => None
      end
  end.

Fixpoint exec (evs : list event) (q : state) : option state :=
  match evs with
  | [] => Some q
  | ev :: evs' =>
      match step ev q with
      | Some q' => exec evs' q'
      | None => None
      end
  end.

(** [q'] is a state the event loop can bring [q] to. *)
Definition reachable (q q' : state) : Prop :=
  exists evs, exec evs q = Some q'.

(** No call of [_processNext] of an earlier run is still suspended. *)
Definition idle (q : state) : Prop := chains q = [].

(** The object the constructor builds for valid arguments. *)
Definition fresh (maxAtSameTime retryAttempts : Z) : state :=
  {| maxAtSameTime := maxAtSameTime;
     retryAttempts := retryAttempts;
     abortController := None;
     tasks := [];
     results := [];
     runningCount := 0;
     nextTaskIndex := 0;
     finishedCount := 0;
     chains := [];
     calls := [];
     completions := [];
     resolveQueue := NoPromise |}.

(** The state after the events [evs], or [q] itself when one of them cannot
    happen. *)
Definition after (evs : list event) (q : state) : state :=
  default q (exec evs q).

(** *** What the theorems speak about *)

(** The argument is a number whose value is a whole number at least 1. *)
Definition positive_integer (x : arg) : Prop :=
  exists (n : Z) (q : Q), 1 <= n /\ x = Num (Finite q) /\ (q == inject_Z n)%Q.

Definition throws (r : string + state) : Prop := exists msg, r = inl msg.

(** The chain waits for a backoff timer that has been cleared. *)
Definition timer_cleared (c : chain) : Prop :=
  exists attempt theError, awaiting c = AwaitBackoff attempt theError None.

(** The outcome of task [i] is due to cancellation: the index was never
    claimed, or the retry loop of its call found the signal aborted and
    threw. *)
Definition due_to_cancellation (q : state) (i : nat) : Prop :=
  (nextTaskIndex q <= i)%nat \/ exists err, (i, Throw err) ∈ completions q.

(** No task fails with an error that reads like one of the two
    cancellation errors. *)
Definition no_task_fails_cancelled (ts : list task) : Prop :=
  forall fn k err, fn ∈ ts -> fn k = Reject err ->
    to_Error err <> cancelled /\ to_Error err <> cancelErr.

(** [tasks[i]] *)
Definition fn_at (ts : list task) (i : nat) : task :=
  default not_a_function (ts !! i).

(** [Math.min(maxAtSameTime, tasks.length)] *)
Definition batch (ts : list task) (C : Z) : nat :=
  Z.to_nat (Z.min C (Z.of_nat (length ts))).

(** The indices that are claimed and whose outcome is not written yet. *)
Definition in_flight (q : state) : list nat := currentIndex <$> chains q.

(** What holds in every state of a run of [ts] on a queue with
    [maxAtSameTime = C] and [retryAttempts = R]. *)
Record inv (ts : list task) (C R : Z) (q : state) : Prop := {
  inv_max : maxAtSameTime q = C;
  inv_retry : retryAttempts q = R;
  inv_ctrl : is_Some (abortController q);
  inv_tasks : tasks q = ts;
  inv_results : length (results q) = length ts;
  inv_calls : length (calls q) = length ts;
  inv_next : (nextTaskIndex q <= length ts)%nat;
  inv_running : runningCount q = Z.of_nat (length (chains q));
  inv_ceiling : (length (chains q) <= batch ts C)%nat;
  inv_nodup : NoDup (in_flight q);
  inv_chain : forall c, c ∈ chains q ->
    (currentIndex c < nextTaskIndex q)%nat /\
    taskFn c = fn_at ts (currentIndex c) /\
    results q !! currentIndex c = Some Null /\
    reach R (taskFn c) (aborted q) (awaiting c)
      (invocations q (currentIndex c));
  inv_done : forall i, (i < nextTaskIndex q)%nat -> i ∉ in_flight q ->
    exists o, (i, o) ∈ completions q;
  inv_log : forall i o, (i, o) ∈ completions q ->
    (i < nextTaskIndex q)%nat /\ (i ∉ in_flight q) /\
    results q !! i = Some (Filled (record_of o)) /\
    exists b, (b = true -> aborted q = true) /\
              reach R (fn_at ts i) b (Settled o) (invocations q i);
  inv_unclaimed : forall i, (nextTaskIndex q <= i < length ts)%nat ->
    invocations q i = 0%nat /\
    results q !! i = Some (match resolveQueue q with
                           | Resolved _ => Filled (Captured cancelErr)
                           | _ => Null
                           end);
  inv_resolved : forall rs, resolveQueue q = Resolved rs ->
    rs = results q /\ chains q = [] /\
    ((nextTaskIndex q < length ts)%nat -> aborted q = true);
  inv_promise : resolveQueue q <> NoPromise;
}.

#[global] Instance event_eq_dec : EqDecision event.
Proof. solve_decision. Defined.

(** The events of [evs] that are steps of a chain. *)
Definition chain_events (evs : list event) : list event :=
  filter (fun ev => ev <> CancelAll) evs.

(** An upper bound on the chain events a state can still take. *)
Definition potential (q : state) : nat :=
  sum_list_with (fun c => cost (retryAttempts q) (awaiting c)) (chains q)
  + (length (tasks q) - nextTaskIndex q) * task_cost (retryAttempts q).

(** A pending run has a chain in flight. *)
Definition live (q : state) : Prop :=
  resolveQueue q = Pending -> chains q <> [].

(** No chain waits in backoff. *)
Definition none_in_backoff (q : state) : Prop :=
  forall c, c ∈ chains q ->
    forall attempt theError timer,
      awaiting c <> AwaitBackoff attempt theError timer.

(** The slot a direct-style call fills. *)
Definition slot_of (o : outcome) : slot :=
  match o with
  | Finished c _ => Filled (record_of c)
  | Hangs _ => Null
  end.

(** [error.message] *)
Definition message (e : value) : value :=
  match e with
  | VError m => VString m
  | _ => VUndefined
  end.

(** [results.map((r) => (r.status === 'success' ? r.value :
    r.error?.message))], the line of example.js that prints the output
    order.  [map] keeps a hole as a hole ([None]) without calling the arrow
    function; reading [status] of [null] throws. *)
Definition output_order (rs : list slot) : option (list (option value)) :=
  mapM (fun r => match r with
                 | Filled (Success v) => Some (Some v)
                 | Filled (Captured e) => Some (Some (message e))
                 | Hole => Some None
                 | Null => None
                 end) rs.

(** The chain that holds [idx] awaits an attempt that is going to resolve
    with [v], or has completed with that success, or has stored it. *)
Definition success_on_its_way (idx : nat) (fn : task) (attempt : Z)
    (theError v : value) (q : state) : Prop :=
  Chain idx fn (AwaitTask attempt theError (Resolve v)) ∈ chains q \/
  Chain idx fn (Settled (Return (Success v))) ∈ chains q \/
  results q !! idx = Some (Filled (Success v)).

(** [finishedCount + runningCount] is the cursor. *)
Definition counted (q : state) : Prop :=
  finishedCount q + runningCount q = Z.of_nat (nextTaskIndex q).

End Queue.
Export Queue.

(** ** Concrete runs *)

Module Examples.

Definition ok (s : string) : task := fun _ => Resolve (VString s).

Definition failing (s : string) : task := fun _ => Reject (VError s).

(** Fails twice, then succeeds. *)
Definition flaky : task :=
  fun k =>
    if (k <? 2)%nat then Reject (VError "fail") else Resolve (VString "ok").

(** Three tasks at concurrency 2 with 2 retries; the third task is
    claimed by the chain of the first and completes before the second. *)
Definition mixed : list task := [ok "1"; failing "e2"; ok "3"].

Definition mixed_events : list event :=
  [TaskSettles 0; Resumes 0; TaskSettles 2; Resumes 2;
   TaskSettles 1; TimerFires 1; TaskSettles 1; TimerFires 1;
   TaskSettles 1; Resumes 1]%nat.

Definition mixed_done : state := after mixed_events (run mixed (fresh 2 2)).

(** The same run, stopped while two chains are suspended. *)
Definition mixed_midway : state :=
  after [TaskSettles 0; Resumes 0; TaskSettles 1]%nat (run mixed (fresh 2 2)).

(** One task at concurrency 1 with 3 retries: two backoff waits, then the
    third attempt settles and the chain is resumed. *)
Definition retry_events : list event :=
  [TaskSettles 0; TimerFires 0; TaskSettles 0; TimerFires 0;
   TaskSettles 0; Resumes 0]%nat.

Definition flaky_done : state := after retry_events (run [flaky] (fresh 1 3)).

(** Three backoff waits, the fourth attempt settles. *)
Definition exhaust_events : list event :=
  [TaskSettles 0; TimerFires 0; TaskSettles 0; TimerFires 0;
   TaskSettles 0; TimerFires 0; TaskSettles 0; Resumes 0]%nat.

Definition failing_done : state :=
  after exhaust_events (run [failing "permanent"] (fresh 1 3)).

(** One failing task with one retry: the first attempt has failed and the
    chain waits 100 ms; then [cancelAll()] is called. *)
Definition in_backoff : state :=
  after [TaskSettles 0%nat] (run [failing "x"] (fresh 1 1)).

Definition backoff_cancelled : state := cancelAll in_backoff.

(** Two tasks at concurrency 1 with one retry; [cancelAll()] is called
    while the first attempt of the first task is pending, then the attempt
    fails. *)
Definition cancel_events : list event :=
  [CancelAll; TaskSettles 0; Resumes 0]%nat.

Definition both_cancelled : state :=
  after cancel_events (run [failing "x"; ok "b"] (fresh 1 1)).

(** A task that fails, without any cancellation, with an Error whose
    message is the one [_checkCompletion] uses. *)
Definition lookalike_done : state :=
  after [TaskSettles 0; Resumes 0]%nat
    (run [failing "Task cancelled via cancelAll()"] (fresh 1 0)).

(** Three tasks at concurrency 1; [cancelAll()] is called while the first
    one is running, which then resolves. *)
Definition cancelled_while_running : state :=
  after [CancelAll; TaskSettles 0; Resumes 0]%nat
    (run [ok "a"; ok "b"; ok "c"] (fresh 1 3)).

(** Two tasks at concurrency 1 with [retryAttempts = -1]; [cancelAll()] is
    called right after [run]. *)
Definition negative_cancelled : state :=
  after [CancelAll; Resumes 0%nat] (run [ok "a"; ok "b"] (fresh 1 (-1))).

End Examples.

(** ** Construction *)

Lemma whole_iff (q : Q) :
  (Qnum q mod Zpos (Qden q) =? 0) = true <->
  exists n : Z, (q == inject_Z n)%Q.
Proof.
  destruct q as [a d]; unfold Qeq; simpl. rewrite Z.eqb_eq. split.
  - intros Hm. exists (a / Zpos d).
    pose proof (Z_div_mod_eq_full a (Zpos d)) as E. lia.
  - intros [n Hn]. replace a with (n * Zpos d) by lia.
    apply Z_mod_mult.
Qed.

Lemma not_lt_1_iff (q : Q) (n : Z) :
  (q == inject_Z n)%Q -> number_lt_1 (Finite q) = false <-> 1 <= n.
Proof.
  intros Hq. simpl. rewrite negb_false_iff, Qle_bool_iff, Hq.
  change 1%Q with (inject_Z 1). rewrite <- Zle_Qle. tauto.
Qed.

Lemma accepted_iff (x : arg) :
  lt_1 x || negb (Number_isInteger x) = false <-> positive_integer x.
Proof.
  rewrite orb_false_iff, negb_false_iff. split.
  - intros [Hlt Hint].
    destruct x as [[| | |q]|]; simpl in Hint; try discriminate.
    apply whole_iff in Hint as [n Hn]. exists n, q.
    split; [apply (not_lt_1_iff q n Hn); exact Hlt|].
    split; [reflexivity | assumption].
  - intros (n & q & Hn & -> & Hq). split.
    + apply (not_lt_1_iff q n Hq). exact Hn.
    + apply whole_iff. eauto.
Qed.

Lemma new_AsyncQueue_inr (x : arg) (r : option Z) (q : state) :
  new_AsyncQueue x r = inr q ->
  retryAttempts q = default 3 r /\ abortController q = None /\
  chains q = [] /\ resolveQueue q = NoPromise.
Proof.
  unfold new_AsyncQueue.
  destruct (lt_1 x || negb (Number_isInteger x)); [discriminate|].
  destruct x as [[| | |w]|]; try discriminate.
  intros [= <-]. simpl. auto.
Qed.

Lemma new_AsyncQueue_whole (n : Z) (r : option Z) :
  1 <= n ->
  new_AsyncQueue (Num (Finite (inject_Z n))) r = inr (fresh n (default 3 r)).
Proof.
  intros Hn. unfold new_AsyncQueue.
  assert (A : lt_1 (Num (Finite (inject_Z n)))
              || negb (Number_isInteger (Num (Finite (inject_Z n)))) = false).
  { apply accepted_iff. exists n, (inject_Z n).
    split; [lia|]. split; reflexivity. }
  rewrite A. simpl. unfold fresh. by rewrite Z.div_1_r.
Qed.

(** C6: the constructor throws exactly when the concurrency argument is not
    a positive integer.  Zero, the negative integers and every finite
    number with a fractional part are rejected; every integer from 1 on is
    accepted and stored. *)
Theorem constructor_validates_concurrency (x : arg) (r : option Z) :
  (throws (new_AsyncQueue x r) <-> ~ positive_integer x) /\
  (forall n : Z, n <= 0 ->
     throws (new_AsyncQueue (Num (Finite (inject_Z n))) r)) /\
  (forall w : Q, (forall n : Z, ~ (w == inject_Z n)%Q) ->
     throws (new_AsyncQueue (Num (Finite w)) r)) /\
  (forall n : Z, 1 <= n ->
     exists q, new_AsyncQueue (Num (Finite (inject_Z n))) r = inr q /\
               maxAtSameTime q = n).
Proof.
  assert (Iff : forall y, throws (new_AsyncQueue y r) <-> ~ positive_integer y).
  { intros y. rewrite <- accepted_iff. unfold throws, new_AsyncQueue.
    destruct (lt_1 y || negb (Number_isInteger y)) eqn:E.
    - split; [intros _; discriminate | eauto].
    - split; [|congruence]. intros [msg Hmsg]. exfalso.
      apply accepted_iff in E as (n & w & _ & -> & _). discriminate. }
  split; [apply Iff|]. split; [|split].
  - intros n Hn. apply Iff. intros (k & w & Hk & [= <-] & Hw).
    unfold Qeq in Hw. simpl in Hw. lia.
  - intros w Hw. apply Iff. intros (k & w' & _ & [= <-] & Hk).
    exact (Hw k Hk).
  - intros n Hn. rewrite (new_AsyncQueue_whole n r Hn). eauto.
Qed.

(** ** The retry helper: the two forms agree *)

(** Splits [resume ... s calls = Some (s', calls')] into the two events a
    suspended call can wait for. *)
Ltac resumed Hres s :=
  destruct s as [?a ?e ?p|?a ?e [?w|]|?c]; simpl in Hres; try discriminate;
  injection Hres as Hres;
  match type of Hres with
  | _ = (?s', ?n') =>
      let Hs := fresh in let Hc := fresh in
      pose proof (f_equal fst Hres) as Hs; pose proof (f_equal snd Hres) as Hc;
      cbn [fst snd] in Hs, Hc; clear Hres; subst s' n'
  end.

Section RetryFacts.
Variable R : Z.
Variable fn : task.

Local Abbreviation in_budget := (Retry.in_budget R).

Lemma in_budget_reach (b : bool) (s : suspended) (calls : nat) :
  reach R fn b s calls -> in_budget s.
Proof.
  induction 1 as [|b s calls s' calls' H IH Hres|b s calls H IH].
  - unfold start, loop_head. destruct (0 <=? R) eqn:E; simpl; [|exact I].
    apply Z.leb_le in E. lia.
  - resumed Hres s; simpl in IH.
    + unfold after_attempt. destruct p as [v|err]; [exact I|].
      destruct (a <? R) eqn:E; destruct b; simpl;
        unfold loop_head; try (apply Z.ltb_lt in E; lia);
        destruct (a + 1 <=? R) eqn:E'; simpl; try exact I;
        apply Z.leb_le in E'; lia.
    + unfold after_backoff, loop_head.
      destruct (a + 1 <=? R) eqn:E'; [|exact I].
      destruct b; simpl; [exact I|]. apply Z.leb_le in E'. lia.
  - destruct s as [a e p|a e w|c]; simpl in *; auto.
Qed.

(** A backoff timer is armed only while the signal is not aborted. *)
Lemma live_timer_reach (b : bool) (s : suspended) (calls : nat) :
  reach R fn b s calls ->
  forall a e w, s = AwaitBackoff a e (Some w) -> b = false.
Proof.
  assert (Head : forall b calls a e a' e' w,
            (loop_head R b fn calls a e).1 <> AwaitBackoff a' e' (Some w)).
  { intros b0 c0 a0 e0 a' e' w0. unfold loop_head.
    destruct (a0 <=? R); [destruct b0|]; discriminate. }
  induction 1 as [|b s calls s' calls' H IH Hres|b s calls H IH].
  - intros a e w E. by apply Head in E.
  - resumed Hres s; intros a' e' w' E.
    + unfold after_attempt in E. destruct p as [v|err]; [discriminate|].
      destruct (a <? R); simpl in E; [|by apply Head in E].
      destruct b; simpl in E; [by apply Head in E|reflexivity].
    + by apply Head in E.
  - intros a e w E. destruct s as [| |]; discriminate.
Qed.

Lemma agrees_snoc (signal : nat -> bool) (l : list bool) (b : bool) :
  agrees signal (l ++ [b]) -> agrees signal l /\ signal (length l) = b.
Proof.
  intros A. split.
  - intros k x Hk. apply A. by apply lookup_app_l_Some.
  - apply A. by rewrite list_lookup_middle.
Qed.

Lemma agrees_default (l : list bool) (b : bool) :
  agrees (fun k => default b (l !! k)) l.
Proof. intros k x Hk. by rewrite Hk. Qed.

(** From the loop test on, the two forms do the same. *)
Lemma continue_loop_head (signal : nat -> bool) (b : bool)
    (calls seg : nat) (attempt : Z) (e : value) :
  signal seg = b ->
  continue signal R fn (loop_head R b fn calls attempt e).1
    (loop_head R b fn calls attempt e).2 (S seg)
  = for_attempts signal fn R (Z.to_nat (R + 1 - attempt)) attempt e calls seg.
Proof.
  intros Hb. unfold loop_head. destruct (attempt <=? R) eqn:E.
  - apply Z.leb_le in E.
    replace (Z.to_nat (R + 1 - attempt)) with (S (Z.to_nat (R - attempt)))
      by lia.
    simpl for_attempts. rewrite Hb. destruct b; reflexivity.
  - apply Z.leb_gt in E.
    replace (Z.to_nat (R + 1 - attempt)) with O by lia. reflexivity.
Qed.

(** Every suspended state of a call lies on the path of the direct-style
    call, for every signal that read what the call has read so far; the
    reads were all [false] unless the signal is aborted by now. *)
Lemma reach_direct (b : bool) (s : suspended) (calls : nat) :
  reach R fn b s calls ->
  exists l : list bool,
    (forall x, x ∈ l -> x = true -> b = true) /\
    forall signal, agrees signal l ->
      runTaskWithRetry signal fn R = continue signal R fn s calls (length l).
Proof.
  induction 1 as [|b s calls s' calls' H IH Hres|b s calls H IH].
  - exists [false]. split.
    + intros x Hx. apply list_elem_of_singleton in Hx. congruence.
    + intros signal A. unfold start, runTaskWithRetry.
      change (length [false]) with 1%nat.
      rewrite (continue_loop_head signal false 0 0 0 VNull).
      * by rewrite Z.sub_0_r.
      * by apply A.
  - destruct IH as (l & Hl & IH). exists (l ++ [b]). split.
    + intros x Hx. apply elem_of_app in Hx as [Hx|Hx]; [by apply Hl|].
      apply list_elem_of_singleton in Hx. congruence.
    + intros signal A. apply agrees_snoc in A as [A Hb].
      rewrite (IH signal A), length_app. simpl length.
      replace (length l + 1)%nat with (S (length l)) by lia.
      pose proof (in_budget_reach _ _ _ H) as B.
      pose proof (live_timer_reach _ _ _ H) as T.
      resumed Hres s; simpl in B.
      * unfold after_attempt. simpl continue at 1. unfold after_await.
        destruct p as [v|err]; [reflexivity|]. rewrite Hb.
        destruct ((a <? R) && negb b); [reflexivity|].
        rewrite (continue_loop_head signal b _ _ _ _ Hb). f_equal. lia.
      * specialize (T _ _ _ eq_refl). rewrite T in Hb |- *.
        unfold after_backoff. simpl continue at 1. rewrite Hb.
        rewrite (continue_loop_head signal false _ _ _ _ Hb). f_equal. lia.
  - destruct IH as (l & Hl & IH).
    destruct s as [a e p|a e [w|]|c];
      try (exists l; split; [auto|exact IH]).
    exists (l ++ [true]). split; [auto|].
    intros signal A. apply agrees_snoc in A as [A Hb].
    rewrite (IH signal A). simpl. by rewrite Hb.
Qed.

(** A completed call completed the way the direct-style call does for some
    signal, after as many invocations. *)
Corollary reach_outcome (b : bool) (c : completion) (calls : nat) :
  reach R fn b (Settled c) calls ->
  exists signal, runTaskWithRetry signal fn R = Finished c calls.
Proof.
  intros H. destruct (reach_direct _ _ _ H) as (l & _ & Hl).
  exists (fun k => default b (l !! k)). apply Hl, agrees_default.
Qed.

(** As long as the signal is not aborted, that signal is [never]. *)
Corollary reach_never (s : suspended) (calls : nat) :
  reach R fn false s calls ->
  exists seg, runTaskWithRetry never fn R = continue never R fn s calls seg.
Proof.
  intros H. destruct (reach_direct _ _ _ H) as (l & Hfalse & Hl).
  exists (length l). apply Hl. intros k x Hk. unfold never.
  destruct x; [|reflexivity]. apply (Hfalse true); [|reflexivity].
  by apply list_elem_of_lookup_2 in Hk.
Qed.

Corollary reach_settled (c : completion) (calls : nat) :
  reach R fn false (Settled c) calls ->
  runTaskWithRetry never fn R = Finished c calls.
Proof. intros H. by destruct (reach_never _ _ H) as [seg ->]. Qed.

End RetryFacts.

(** ** Retrying without cancellation *)

Section NoCancellation.
Variable R : Z.
Variable fn : task.

Lemma for_attempts_success (K : nat) (v : value) :
  fails_then_succeeds fn K v -> Z.of_nat K <= R ->
  forall (d j : nat) (e : value) (seg : nat),
    (j + d = K)%nat ->
    for_attempts never fn R (Z.to_nat (R + 1 - Z.of_nat j)) (Z.of_nat j) e j seg
    = Finished (Return (Success v)) (S K).
Proof.
  intros [Hfail Hok] HK. induction d as [|d IH]; intros j e seg Hj.
  - replace j with K by lia.
    replace (Z.to_nat (R + 1 - Z.of_nat K))
      with (S (Z.to_nat (R - Z.of_nat K))) by lia.
    simpl. unfold after_await. rewrite Hok. reflexivity.
  - replace (Z.to_nat (R + 1 - Z.of_nat j))
      with (S (Z.to_nat (R + 1 - Z.of_nat (S j)))) by lia.
    simpl for_attempts. unfold never at 1. unfold after_await.
    destruct (Hfail j ltac:(lia)) as [err ->]. unfold never at 1 2.
    assert (E : (Z.of_nat j <? R) = true) by (apply Z.ltb_lt; lia).
    rewrite E. simpl andb. cbv iota.
    replace (Z.of_nat j + 1) with (Z.of_nat (S j)) by lia.
    apply IH. lia.
Qed.

Lemma for_attempts_exhausted :
  always_fails fn -> 0 <= R ->
  forall (n j : nat) (e err : value) (seg : nat),
    fn (Z.to_nat R) = Reject err ->
    Z.of_nat j + Z.of_nat (S n) = R + 1 ->
    for_attempts never fn R (S n) (Z.of_nat j) e j seg
    = Finished (Return (Captured (to_Error err))) (S (Z.to_nat R)).
Proof.
  intros Hfail HR. induction n as [|n IH]; intros j e err seg Hlast Hj.
  - simpl. unfold never at 1. unfold after_await.
    replace j with (Z.to_nat R) by lia. rewrite Hlast.
    assert (E : (Z.of_nat (Z.to_nat R) <? R) = false)
      by (apply Z.ltb_ge; lia).
    rewrite E. reflexivity.
  - change (for_attempts never fn R (S (S n)) (Z.of_nat j) e j seg)
      with (if never seg then Finished (Throw cancelled) j
            else after_await never R (for_attempts never fn R (S n))
                   (Z.of_nat j) (fn j) (S j) (S seg)).
    unfold never at 1. unfold after_await.
    destruct (Hfail j) as [err' ->]. unfold never at 1 2.
    assert (E : (Z.of_nat j <? R) = true) by (apply Z.ltb_lt; lia).
    rewrite E. simpl andb. cbv iota.
    replace (Z.of_nat j + 1) with (Z.of_nat (S j)) by lia.
    apply IH; [exact Hlast | lia].
Qed.

(** The direct-style call on a task that fails [K] times and then
    succeeds. *)
Lemma runTaskWithRetry_success (K : nat) (v : value) :
  fails_then_succeeds fn K v -> Z.of_nat K <= R ->
  runTaskWithRetry never fn R = Finished (Return (Success v)) (S K).
Proof.
  intros H HK. unfold runTaskWithRetry.
  pose proof (for_attempts_success K v H HK K 0%nat VNull 0%nat eq_refl) as E.
  simpl Z.of_nat in E. rewrite Z.sub_0_r in E. exact E.
Qed.

(** The direct-style call on a task that always fails. *)
Lemma runTaskWithRetry_exhausted (err : value) :
  always_fails fn -> 0 <= R -> fn (Z.to_nat R) = Reject err ->
  runTaskWithRetry never fn R
  = Finished (Return (Captured (to_Error err))) (S (Z.to_nat R)).
Proof.
  intros H HR Hlast. unfold runTaskWithRetry.
  replace (Z.to_nat (R + 1)) with (S (Z.to_nat R)) by lia.
  apply (for_attempts_exhausted H HR (Z.to_nat R) 0%nat VNull err 0%nat Hlast).
  lia.
Qed.

End NoCancellation.

(** A call throws only the cancellation error, and only after the signal
    was aborted. *)
Lemma reach_throw (R : Z) (fn : task) (b : bool) (s : suspended) (n : nat) :
  reach R fn b s n ->
  forall err, s = Settled (Throw err) -> err = cancelled /\ b = true.
Proof.
  assert (Head : forall b calls a e err,
            (loop_head R b fn calls a e).1 = Settled (Throw err) ->
            err = cancelled /\ b = true).
  { intros b' calls a e err. unfold loop_head.
    destruct (a <=? R); [|discriminate].
    destruct b'; simpl; [|discriminate]. intros [= <-]. auto. }
  induction 1 as [|b s calls s' calls' H IH Hres|b s calls H IH].
  - intros err E. unfold start in E. apply Head in E as [_ E]. discriminate.
  - resumed Hres s; intros err E.
    + unfold after_attempt in E. destruct p as [v|e']; [discriminate|].
      destruct ((a <? R) && negb b); [discriminate|]. eapply Head, E.
    + eapply Head, E.
  - intros err E. destruct s; try discriminate. simpl in E.
    destruct (IH _ E) as [? _]. auto.
Qed.

(** The error of a captured record that a call returns is the task's last
    rejection made an Error, or [null] made one. *)
Lemma reach_failure (R : Z) (fn : task) (b : bool) (s : suspended) (n : nat) :
  reach R fn b s n ->
  match s with
  | AwaitTask _ e p => failure_of fn e /\ exists k, p = fn k
  | AwaitBackoff _ e _ => failure_of fn e
  | Settled (Return (Captured e)) =>
      exists err, failure_of fn err /\ e = to_Error err
  | Settled _ => True
  end.
Proof.
  assert (Head : forall b calls a e,
            failure_of fn e ->
            match (loop_head R b fn calls a e).1 with
            | AwaitTask _ e p => failure_of fn e /\ exists k, p = fn k
            | AwaitBackoff _ e _ => failure_of fn e
            | Settled (Return (Captured e)) =>
                exists err, failure_of fn err /\ e = to_Error err
            | Settled _ => True
            end).
  { intros b0 c0 a0 e0 He. unfold loop_head.
    destruct (a0 <=? R); [destruct b0|]; simpl; eauto. }
  induction 1 as [|b s calls s' calls' H IH Hres|b s calls H IH].
  - apply Head. by left.
  - resumed Hres s.
    + destruct IH as [He [k ->]]. unfold after_attempt.
      destruct (fn k) as [v|err] eqn:Hk; [exact I|].
      assert (Herr : failure_of fn err) by (right; eauto).
      destruct ((a <? R) && negb b); [exact Herr|by apply Head].
    + by apply Head.
  - destruct s as [a e p|a e w|c]; exact IH.
Qed.

(** With a negative retry budget the loop body never runs: the call
    completes at once with the normalisation of [null] and the task is not
    invoked. *)
Lemma reach_negative (R : Z) (fn : task) (b : bool) (s : suspended) (n : nat) :
  R < 0 -> reach R fn b s n ->
  s = Settled (Return (Captured (VError "null"))) /\ n = 0%nat.
Proof.
  intros HR. induction 1 as [|b s calls s' calls' H IH Hres|b s calls H IH].
  - unfold start, loop_head.
    assert (E : (0 <=? R) = false) by (apply Z.leb_gt; lia).
    rewrite E. auto.
  - destruct IH as [-> _]. discriminate.
  - destruct IH as [-> ->]. auto.
Qed.

(** ** The invariant of a run *)

Lemma take_spec (i : nat) (l : list chain) (c : chain) (rest : list chain) :
  take i l = Some (c, rest) -> l ≡ₚ c :: rest /\ currentIndex c = i.
Proof.
  revert c rest. induction l as [|c0 l IH]; intros c rest; simpl.
  - discriminate.
  - destruct (currentIndex c0 =? i)%nat eqn:E.
    + intros [= <- <-]. apply Nat.eqb_eq in E. auto.
    + destruct (take i l) as [[c' rest']|]; [|discriminate].
      intros [= <- <-]. destruct (IH c' rest' eq_refl) as [P ?].
      split; [|assumption]. rewrite P. apply Permutation_swap.
Qed.

Section Invariant.
Variable ts : list task.
Variable C R : Z.

Local Abbreviation fn_at := (Queue.fn_at ts).
Local Abbreviation batch := (Queue.batch ts C).
Local Abbreviation inv := (Queue.inv ts C R).
Local Abbreviation reset := (Queue.reset ts).

(** [_checkCompletion] when nothing is left to claim. *)
Lemma inv_checkCompletion (q : state) :
  inv q -> resolveQueue q = Pending ->
  ((length ts <= nextTaskIndex q)%nat \/ aborted q = true) ->
  inv (_checkCompletion q).
Proof.
  intros I HP Hexit. unfold _checkCompletion.
  destruct (runningCount q =? 0) eqn:E; [|exact I].
  apply Z.eqb_eq in E. destruct I. rewrite E in inv_running0.
  assert (Hch : chains q = []) by (destruct (chains q); [done|simpl in *; lia]).
  assert (Hfill : forall i r,
            results q !! i = Some (Filled r) ->
            (if aborted q then fill_cancelled <$> results q else results q) !! i
            = Some (Filled r)).
  { intros i r Hi. destruct (aborted q); [|exact Hi].
    rewrite list_lookup_fmap, Hi. reflexivity. }
  constructor; simpl; rewrite ?HP; simpl; try assumption.
  - destruct (aborted q); [rewrite length_fmap|]; assumption.
  - lia.
  - rewrite Hch. intros c Hc. by apply elem_of_nil in Hc.
  - intros i o Hio. destruct (inv_log0 i o Hio) as (? & ? & ? & ?).
    repeat split; auto.
  - intros i Hi. destruct (inv_unclaimed0 i Hi) as [Hc Hr].
    rewrite HP in Hr. split; [assumption|].
    destruct Hexit as [Hend|Hab]; [lia|]. rewrite Hab.
    rewrite list_lookup_fmap, Hr. reflexivity.
  - intros rs [= <-]. split; [reflexivity|]. split; [assumption|].
    intros Hlt. destruct Hexit as [Hend|Hab]; [lia|assumption].
  - discriminate.
Qed.

(** [_processNext] when it claims the next index. *)
Lemma inv_claim (q : state) :
  inv q -> resolveQueue q = Pending ->
  (nextTaskIndex q < length ts)%nat -> aborted q = false ->
  (length (chains q) < batch)%nat ->
  inv (_processNext q) /\
  chains (_processNext q) =
    chains q ++ [Chain (nextTaskIndex q) (fn_at (nextTaskIndex q))
                   (start R false (fn_at (nextTaskIndex q)) 0).1] /\
  nextTaskIndex (_processNext q) = S (nextTaskIndex q) /\
  resolveQueue (_processNext q) = Pending /\
  aborted (_processNext q) = false.
Proof.
  intros I HP Hlt Hab Hroom. unfold _processNext.
  assert (E : (length (tasks q) <=? nextTaskIndex q)%nat = false).
  { apply Nat.leb_gt. by rewrite (inv_tasks _ _ _ q I). }
  rewrite E, Hab. simpl orb. cbv iota.
  destruct I. rewrite inv_tasks0, inv_retry0.
  destruct (inv_unclaimed0 (nextTaskIndex q) ltac:(lia)) as [Hzero Hnull].
  rewrite HP in Hnull. rewrite Hzero. fold (fn_at (nextTaskIndex q)).
  set (i := nextTaskIndex q) in *.
  set (call := start R false (fn_at i) 0).
  unfold aborted, in_flight, invocations in *.
  assert (Hfresh : i ∉ currentIndex <$> chains q).
  { intros Hin. apply list_elem_of_fmap in Hin as (c & Hc & Hin).
    destruct (inv_chain0 c Hin) as [Hci _]. lia. }
  assert (Hother : forall j, j <> i ->
            <[i := call.2]> (calls q) !! j = calls q !! j).
  { intros j Hj. by rewrite list_lookup_insert_ne. }
  split; [|auto].
  constructor; unfold aborted, in_flight, invocations; simpl;
    try (assumption || reflexivity).
  - by rewrite length_insert.
  - rewrite length_app. simpl. lia.
  - rewrite length_app. simpl. lia.
  - rewrite fmap_app. simpl.
    apply NoDup_app. split; [assumption|]. split.
    + intros j Hj Hj'. apply list_elem_of_singleton in Hj'. subst j. auto.
    + apply NoDup_singleton.
  - intros c Hc. apply elem_of_app in Hc as [Hc|Hc].
    + destruct (inv_chain0 c Hc) as (Hci & Hfn & Hres & Hreach).
      rewrite Hother by lia. rewrite Hab in Hreach. rewrite Hab.
      auto with lia.
    + apply list_elem_of_singleton in Hc. subst c. simpl.
      split; [lia|]. split; [reflexivity|]. split; [assumption|].
      rewrite list_lookup_insert_eq by lia. simpl. rewrite Hab.
      apply reach_start.
  - intros j Hj Hnot. rewrite fmap_app in Hnot. simpl in Hnot.
    apply not_elem_of_app in Hnot as [Hnot Hne].
    apply not_elem_of_cons in Hne as [Hne _].
    apply inv_done0; [lia|assumption].
  - intros j o Hjo.
    destruct (inv_log0 j o Hjo) as (Hj & Hnot & Hres & b & Hb & Hreach).
    split; [lia|]. split.
    + rewrite fmap_app. simpl.
      apply not_elem_of_app. split; [assumption|].
      apply not_elem_of_cons. split; [lia|apply not_elem_of_nil].
    + split; [assumption|]. exists b. split; [assumption|].
      rewrite Hother by lia. assumption.
  - intros j Hj. rewrite HP.
    destruct (inv_unclaimed0 j ltac:(lia)) as [Hz Hr]. rewrite HP in Hr.
    split; [|assumption]. rewrite Hother by lia. assumption.
  - intros rs Hrs. congruence.
Qed.

(** [_processNext] on a state that has room for one more chain. *)
Lemma inv_processNext (q : state) :
  inv q -> resolveQueue q = Pending ->
  (length (chains q) < batch)%nat ->
  inv (_processNext q).
Proof.
  intros I HP Hroom.
  destruct (decide (nextTaskIndex q < length ts)%nat) as [Hlt|Hge].
  - destruct (aborted q) eqn:Hab.
    + unfold _processNext. rewrite Hab, orb_true_r.
      apply inv_checkCompletion; auto.
    + by apply inv_claim.
  - unfold _processNext.
    assert (E : (length (tasks q) <=? nextTaskIndex q)%nat = true).
    { apply Nat.leb_le. rewrite (inv_tasks _ _ _ q I). lia. }
    rewrite E. simpl orb. cbv iota.
    apply inv_checkCompletion; auto. left. lia.
Qed.

Lemma inv_reset (q : state) :
  maxAtSameTime q = C -> retryAttempts q = R -> idle q -> inv (reset q).
Proof.
  intros HC HR Hidle. unfold idle in Hidle.
  constructor; unfold aborted, in_flight, invocations; simpl;
    rewrite ?Hidle; simpl; try (assumption || reflexivity || discriminate).
  - by eexists.
  - apply length_replicate.
  - apply length_replicate.
  - lia.
  - lia.
  - apply NoDup_nil_2.
  - intros c Hc. by apply elem_of_nil in Hc.
  - intros i Hi. lia.
  - intros i o Hio. by apply elem_of_nil in Hio.
  - intros i Hi. rewrite !lookup_replicate_2 by lia. auto.
Qed.

(** The [for] loop of lines 82-84: every call claims one index. *)
Lemma inv_initial_batch (q : state) (j : nat) :
  maxAtSameTime q = C -> retryAttempts q = R -> idle q ->
  (j <= batch)%nat ->
  let qj := Nat.iter j _processNext (reset q) in
  inv qj /\ length (chains qj) = j /\ nextTaskIndex qj = j /\
  resolveQueue qj = Pending /\ aborted qj = false.
Proof.
  intros HC HR Hidle. induction j as [|j IH]; intros Hj; simpl.
  - split; [by apply inv_reset|]. unfold idle in Hidle. by rewrite Hidle.
  - destruct (IH ltac:(lia)) as (I & Hlen & Hnext & HP & Hab).
    assert (Hb : (batch <= length ts)%nat) by (unfold Queue.batch; lia).
    destruct (inv_claim _ I HP ltac:(lia) Hab ltac:(lia))
      as (I' & Hch & Hn & HP' & Hab').
    split; [assumption|]. rewrite Hch, length_app, Hn. simpl.
    repeat split; auto; lia.
Qed.

Lemma run_unfold (q : state) :
  ts <> [] -> maxAtSameTime q = C ->
  run ts q = Nat.iter batch _processNext (reset q).
Proof.
  intros Hne HC. unfold run, Queue.batch. rewrite <- HC.
  destruct (length ts =? 0)%nat eqn:E; [|reflexivity].
  apply Nat.eqb_eq, nil_length_inv in E. contradiction.
Qed.

(** [run] establishes the invariant and starts [batch] chains. *)
Lemma inv_run (q : state) :
  maxAtSameTime q = C -> retryAttempts q = R -> idle q ->
  inv (run ts q) /\ length (chains (run ts q)) = batch.
Proof.
  intros HC HR Hidle. destruct (decide (ts = [])) as [Hnil|Hne].
  - unfold Queue.batch, run, Queue.reset. unfold idle in Hidle. rewrite Hidle.
    split; [|rewrite Hnil; simpl; lia].
    constructor; unfold aborted, in_flight, invocations, Queue.batch;
      rewrite ?Hnil; simpl;
      try (assumption || reflexivity || discriminate || lia).
    + by eexists.
    + apply NoDup_nil_2.
    + intros c Hc. by apply elem_of_nil in Hc.
    + intros i o Hio. by apply elem_of_nil in Hio.
    + intros rs [= <-]. split; [reflexivity|]. split; [reflexivity|lia].
  - rewrite (run_unfold q Hne HC).
    destruct (inv_initial_batch q batch HC HR Hidle ltac:(lia))
      as (I & Hlen & _). auto.
Qed.

(** What taking a chain out of the list tells about the others. *)
Lemma take_inv (q : state) (i : nat) (c : chain) (rest : list chain) :
  inv q -> take i (chains q) = Some (c, rest) ->
  currentIndex c = i /\ c ∈ chains q /\
  (forall c', c' ∈ rest -> c' ∈ chains q /\ currentIndex c' <> i) /\
  (i ∉ currentIndex <$> rest) /\ NoDup (currentIndex <$> rest) /\
  length (chains q) = S (length rest) /\
  (forall j, j ∉ i :: (currentIndex <$> rest) <-> j ∉ in_flight q) /\
  resolveQueue q = Pending.
Proof.
  intros I Htake. destruct (take_spec _ _ _ _ Htake) as [P Hi].
  pose proof (inv_nodup _ _ _ q I) as ND. unfold in_flight in *.
  rewrite P in ND. simpl in ND. rewrite Hi in ND.
  apply NoDup_cons in ND as [Hnot ND].
  assert (Hc : c ∈ chains q) by (rewrite P; left).
  split; [assumption|]. split; [assumption|]. split.
  { intros c' Hc'. split; [rewrite P; by right|].
    intros E. apply Hnot. rewrite <- E. by apply list_elem_of_fmap_2. }
  split; [assumption|]. split; [assumption|]. split.
  { by rewrite P. }
  split.
  { intros j. rewrite P. simpl. by rewrite Hi. }
  destruct (resolveQueue q) as [| |rs] eqn:HP; [|reflexivity|].
  - by destruct (inv_promise _ _ _ q I).
  - destruct (inv_resolved _ _ _ q I rs HP) as (_ & Hnil & _).
    rewrite Hnil in Hc. by apply elem_of_nil in Hc.
Qed.

(** A chain inside [runTaskWithRetry] moves to its next suspension. *)
Lemma inv_advance (q : state) (i : nat) (c : chain) (rest : list chain)
    (next : suspended * nat) :
  inv q -> take i (chains q) = Some (c, rest) ->
  resume R (aborted q) (taskFn c) (awaiting c) (invocations q i) = Some next ->
  inv (advance q c rest next).
Proof.
  intros I Htake Hres.
  destruct (take_inv q i c rest I Htake)
    as (Hi & Hc & Hrest & Hnot & ND & Hlen & Hfl & HP).
  destruct I. destruct (inv_chain0 c Hc) as (Hlt & Hfn & Hnull & Hreach).
  rewrite Hi in *.
  unfold aborted, in_flight, invocations in *.
  assert (Hother : forall j, j <> i ->
            <[i := next.2]> (calls q) !! j = calls q !! j).
  { intros j Hj. by rewrite list_lookup_insert_ne. }
  constructor; unfold aborted, in_flight, invocations; simpl;
    rewrite ?Hi; try (assumption || reflexivity).
  - by rewrite length_insert.
  - lia.
  - lia.
  - apply NoDup_cons. auto.
  - intros c' Hc'. apply elem_of_cons in Hc' as [->|Hc']; simpl.
    + split; [assumption|]. split; [assumption|]. split; [assumption|].
      rewrite list_lookup_insert_eq by lia. simpl.
      eapply reach_resume; [exact Hreach|]. destruct next. exact Hres.
    + destruct (Hrest c' Hc') as [Hin Hne].
      rewrite Hother by assumption. by apply inv_chain0.
  - intros j Hj Hnotj. apply inv_done0; [assumption|]. by apply Hfl.
  - intros j o Hjo.
    destruct (inv_log0 j o Hjo) as (Hj & Hnotj & Hr & b & Hb & Hrch).
    split; [assumption|]. split; [by apply Hfl|]. split; [assumption|].
    exists b. split; [assumption|].
    assert (j <> i).
    { intros ->. apply Hfl in Hnotj. apply Hnotj. left. }
    by rewrite Hother.
  - intros j Hj. rewrite Hother by lia. by apply inv_unclaimed0.
  - intros rs Hrs. congruence.
Qed.

Lemma inv_cancelAll (q : state) : inv q -> inv (cancelAll q).
Proof.
  intros I. unfold cancelAll.
  destruct (abortController q) as [[|]|] eqn:Hac; try exact I.
  destruct I. unfold aborted, in_flight, invocations in *.
  assert (Hidx : currentIndex <$> (chain_on_abort <$> chains q)
                 = currentIndex <$> chains q).
  { rewrite <- list_fmap_compose. reflexivity. }
  constructor; unfold aborted, in_flight, invocations; simpl;
    rewrite ?Hidx, ?length_fmap; try (assumption || reflexivity).
  - by eexists.
  - intros c Hc. apply list_elem_of_fmap in Hc as (c0 & -> & Hc0). simpl.
    destruct (inv_chain0 c0 Hc0) as (? & ? & ? & Hreach).
    repeat (split; [assumption|]).
    by apply reach_abort with (b := default false (abortController q)).
  - intros i o Hio.
    destruct (inv_log0 i o Hio) as (? & ? & ? & b & _ & Hrch).
    repeat (split; [assumption|]). exists b. auto.
  - intros rs Hrs. destruct (inv_resolved0 rs Hrs) as (-> & -> & _). auto.
Qed.

(** Lines 106-119: the chain writes its record and goes for the next
    task. *)
Lemma inv_finish (q : state) (i : nat) (c : chain) (rest : list chain)
    (o : completion) :
  inv q -> take i (chains q) = Some (c, rest) -> awaiting c = Settled o ->
  inv (finish q c rest o).
Proof.
  intros I Htake Ho.
  destruct (take_inv q i c rest I Htake)
    as (Hi & Hc & Hrest & Hnot & ND & Hlen & Hfl & HP).
  unfold finish.
  pose proof (inv_ceiling _ _ _ q I) as Hceil.
  apply inv_processNext; simpl; [|assumption|lia].
  destruct I. destruct (inv_chain0 c Hc) as (Hlt & Hfn & Hnull & Hreach).
  rewrite Hi, Ho, Hfn in *.
  unfold aborted, in_flight, invocations in *.
  assert (Hset : array_set i (Filled (record_of o)) (results q)
                 = <[i := Filled (record_of o)]> (results q)).
  { unfold array_set.
    destruct (decide (i < length (results q))%nat); [done|lia]. }
  assert (Hother : forall j, j <> i ->
            <[i := Filled (record_of o)]> (results q) !! j = results q !! j).
  { intros j Hj. by rewrite list_lookup_insert_ne. }
  constructor; unfold aborted, in_flight, invocations; simpl;
    rewrite ?Hi, ?Hset; try (assumption || reflexivity).
  - by rewrite length_insert.
  - lia.
  - lia.
  - intros c' Hc'. destruct (Hrest c' Hc') as [Hin Hne].
    rewrite Hother by assumption. by apply inv_chain0.
  - intros j Hj Hnotj. destruct (decide (j = i)) as [->|Hne].
    + exists o. left.
    + destruct (inv_done0 j Hj) as [o' Ho'].
      * apply Hfl. apply not_elem_of_cons. auto.
      * exists o'. by right.
  - intros j o' Hjo. apply elem_of_cons in Hjo as [[= -> ->]|Hjo].
    + split; [assumption|]. split; [assumption|]. split.
      * apply list_lookup_insert_eq. lia.
      * exists (default false (abortController q)). auto.
    + destruct (inv_log0 j o' Hjo) as (Hj & Hnotj & Hr & b & Hb & Hrch).
      assert (Hne : j <> i).
      { intros ->. apply Hfl in Hnotj. apply Hnotj. left. }
      split; [assumption|]. split.
      * apply Hfl in Hnotj. by apply not_elem_of_cons in Hnotj as [_ ?].
      * rewrite Hother by assumption. eauto.
  - intros j Hj. rewrite Hother by lia. by apply inv_unclaimed0.
  - intros rs Hrs. congruence.
Qed.

(** Every event keeps the invariant. *)
Lemma inv_step (ev : event) (q q' : state) :
  inv q -> step ev q = Some q' -> inv q'.
Proof.
  intros I Hstep. pose proof (inv_retry _ _ _ q I) as HR.
  destruct ev as [i|i|i|]; simpl in Hstep.
  - destruct (take i (chains q)) as [[c rest]|] eqn:Htake; [|discriminate].
    destruct (awaiting c) as [a e p| |] eqn:Hs; try discriminate.
    injection Hstep as <-.
    apply (inv_advance q i c rest); [assumption..|].
    rewrite Hs, <- HR. reflexivity.
  - destruct (take i (chains q)) as [[c rest]|] eqn:Htake; [|discriminate].
    destruct (awaiting c) as [|a e [w|]|] eqn:Hs; try discriminate.
    injection Hstep as <-.
    apply (inv_advance q i c rest); [assumption..|].
    rewrite Hs, <- HR. reflexivity.
  - destruct (take i (chains q)) as [[c rest]|] eqn:Htake; [|discriminate].
    destruct (awaiting c) as [| |o] eqn:Hs; try discriminate.
    injection Hstep as <-.
    by apply (inv_finish q i c rest o).
  - injection Hstep as <-. by apply inv_cancelAll.
Qed.

Lemma inv_exec (evs : list event) (q q' : state) :
  inv q -> exec evs q = Some q' -> inv q'.
Proof.
  revert q. induction evs as [|ev evs IH]; intros q I Hexec; simpl in Hexec.
  - by injection Hexec as <-.
  - destruct (step ev q) as [q1|] eqn:Hstep; [|discriminate].
    eapply IH; [|exact Hexec]. eapply inv_step; eauto.
Qed.

End Invariant.

(** Every state of a run started on an idle queue satisfies the
    invariant. *)
Lemma inv_reachable (ts : list task) (q q' : state) :
  idle q -> reachable (run ts q) q' ->
  inv ts (maxAtSameTime q) (retryAttempts q) q'.
Proof.
  intros Hidle [evs Hexec]. eapply inv_exec; [|exact Hexec].
  by apply inv_run.
Qed.

(** In a state that satisfies the invariant the claimed-and-unwritten
    indices are those of the suspended chains. *)
Lemma claimed_unwritten_in_flight (ts : list task) (C R : Z) (q : state) :
  inv ts C R q -> claimed_unwritten q ≡ₚ in_flight q.
Proof.
  intros I. apply NoDup_Permutation.
  - apply NoDup_filter, NoDup_seq.
  - exact (inv_nodup _ _ _ _ I).
  - intros i. unfold claimed_unwritten.
    rewrite list_elem_of_filter, elem_of_seq. split.
    + intros [Hnull Hi].
      destruct (decide (i ∈ in_flight q)) as [|Hnot]; [done|].
      destruct (inv_done _ _ _ _ I i ltac:(lia) Hnot) as [o Ho].
      destruct (inv_log _ _ _ _ I i o Ho) as (_ & _ & Hr & _). congruence.
    + intros Hin. apply list_elem_of_fmap in Hin as (c & -> & Hc).
      destruct (inv_chain _ _ _ _ I c Hc) as (? & _ & ? & _).
      split; [assumption|lia].
Qed.


(** ** The concrete runs evaluated *)

Example mixed_results :
  resolveQueue Examples.mixed_done =
  Resolved [Filled (Success (VString "1")); Filled (Captured (VError "e2"));
            Filled (Success (VString "3"))].
Proof. vm_compute. reflexivity. Qed.

Example flaky_results :
  resolveQueue Examples.flaky_done
    = Resolved [Filled (Success (VString "ok"))] /\
  calls Examples.flaky_done = [3%nat].
Proof. vm_compute. auto. Qed.

Example failing_results :
  resolveQueue Examples.failing_done
    = Resolved [Filled (Captured (VError "permanent"))] /\
  calls Examples.failing_done = [4%nat].
Proof. vm_compute. auto. Qed.

Example backoff_cancelled_stuck :
  step (TimerFires 0) Examples.backoff_cancelled = None /\
  step (TaskSettles 0) Examples.backoff_cancelled = None /\
  step (Resumes 0) Examples.backoff_cancelled = None /\
  step CancelAll Examples.backoff_cancelled = Some Examples.backoff_cancelled.
Proof. vm_compute. auto. Qed.

(** ** Order of the results *)

(** C1: when the promise of a run is resolved, the delivered array is as
    long as [tasks]; slot [i] holds a record, success or captured, and that
    record is what [_processNext] stores for a call of [runTaskWithRetry] on
    [tasks[i]] itself (as it completes for some timing of the abort
    signal, after the invocations [tasks[i]] has seen), or, for an index that
    was never claimed before a cancellation, the cancellation record.  This
    holds for every order of events. *)
Theorem run_results_in_order (ts : list task) (q q' : state) (rs : list slot) :
  idle q -> reachable (run ts q) q' -> resolveQueue q' = Resolved rs ->
  length rs = length ts /\
  forall (i : nat) (fn : task), ts !! i = Some fn ->
    exists r, rs !! i = Some (Filled r) /\
      ((exists v, r = Success v) \/ (exists err, r = Captured err)) /\
      ((exists o signal,
          runTaskWithRetry signal fn (retryAttempts q)
            = Finished o (invocations q' i) /\ r = record_of o)
       \/ (r = Captured cancelErr /\ (nextTaskIndex q' <= i)%nat /\
           invocations q' i = 0%nat /\ aborted q' = true)).
Proof.
  intros Hidle Hreach HP.
  pose proof (inv_reachable ts q q' Hidle Hreach) as I.
  destruct (inv_resolved _ _ _ _ I rs HP) as (-> & Hnil & Hab).
  split; [exact (inv_results _ _ _ _ I)|].
  intros i fn Hfn. pose proof (lookup_lt_Some _ _ _ Hfn) as Hi.
  assert (Hat : fn_at ts i = fn) by (unfold fn_at; by rewrite Hfn).
  assert (Hkind : forall r : result,
            (exists v, r = Success v) \/ (exists err, r = Captured err)).
  { intros [v|err]; eauto. }
  destruct (decide (i < nextTaskIndex q')%nat) as [Hlt|Hge].
  - destruct (inv_done _ _ _ _ I i Hlt) as [o Ho].
    { unfold in_flight. rewrite Hnil. apply not_elem_of_nil. }
    destruct (inv_log _ _ _ _ I i o Ho) as (_ & _ & Hr & b & _ & Hrch).
    exists (record_of o). split; [assumption|]. split; [apply Hkind|].
    left. rewrite Hat in Hrch.
    destruct (reach_outcome _ _ _ _ _ Hrch) as [signal Hsig]. eauto.
  - destruct (inv_unclaimed _ _ _ _ I i ltac:(lia)) as [Hz Hr].
    rewrite HP in Hr. exists (Captured cancelErr).
    split; [assumption|]. split; [apply Hkind|]. right.
    repeat split; [lia|assumption|]. apply Hab. lia.
Qed.

Lemma run_results_in_order_witness :
  length [Filled (Success (VString "1")); Filled (Captured (VError "e2"));
          Filled (Success (VString "3"))] = length Examples.mixed /\
  forall (i : nat) (fn : task), Examples.mixed !! i = Some fn ->
    exists r,
      [Filled (Success (VString "1")); Filled (Captured (VError "e2"));
       Filled (Success (VString "3"))] !! i = Some (Filled r) /\
      ((exists v, r = Success v) \/ (exists err, r = Captured err)) /\
      ((exists o signal,
          runTaskWithRetry signal fn (retryAttempts (fresh 2 2))
            = Finished o (invocations Examples.mixed_done i)
          /\ r = record_of o)
       \/ (r = Captured cancelErr /\
           (nextTaskIndex Examples.mixed_done <= i)%nat /\
           invocations Examples.mixed_done i = 0%nat /\
           aborted Examples.mixed_done = true)).
Proof.
  apply (run_results_in_order Examples.mixed (fresh 2 2) Examples.mixed_done).
  - reflexivity.
  - exists Examples.mixed_events. vm_compute. reflexivity.
  - vm_compute. reflexivity.
Defined.

(** ** The concurrency ceiling *)

(** C2: [run] starts [min(maxAtSameTime, tasks.length)] chains; from then
    on, in every state of the run, [runningCount] is the number of suspended
    chains, each chain holds one index of its own, these indices are
    exactly the claimed ones whose slot is not written yet, and there are
    never more of them than [maxAtSameTime]. *)
Theorem concurrency_ceiling (ts : list task) (q q' : state) :
  idle q -> 1 <= maxAtSameTime q -> reachable (run ts q) q' ->
  Z.of_nat (length (chains (run ts q)))
    = Z.min (maxAtSameTime q) (Z.of_nat (length ts)) /\
  runningCount q' = Z.of_nat (length (claimed_unwritten q')) /\
  runningCount q' <= maxAtSameTime q /\
  claimed_unwritten q' ≡ₚ currentIndex <$> chains q' /\
  NoDup (currentIndex <$> chains q').
Proof.
  intros Hidle HC Hreach.
  pose proof (inv_reachable ts q q' Hidle Hreach) as I.
  destruct (inv_run ts _ _ q eq_refl eq_refl Hidle) as [_ Hstart].
  pose proof (claimed_unwritten_in_flight _ _ _ _ I) as P.
  pose proof (inv_ceiling _ _ _ _ I) as Hceil.
  pose proof (inv_running _ _ _ _ I) as Hrun.
  unfold batch, in_flight in *.
  assert (Hlen : length (claimed_unwritten q') = length (chains q')).
  { rewrite P. apply length_fmap. }
  split; [lia|]. split; [lia|]. split; [lia|]. split; [assumption|].
  exact (inv_nodup _ _ _ _ I).
Qed.

Lemma concurrency_ceiling_witness :
  Z.of_nat (length (chains (run Examples.mixed (fresh 2 2))))
    = Z.min (maxAtSameTime (fresh 2 2)) (Z.of_nat (length Examples.mixed)) /\
  runningCount Examples.mixed_midway
    = Z.of_nat (length (claimed_unwritten Examples.mixed_midway)) /\
  runningCount Examples.mixed_midway <= maxAtSameTime (fresh 2 2) /\
  claimed_unwritten Examples.mixed_midway
    ≡ₚ currentIndex <$> chains Examples.mixed_midway /\
  NoDup (currentIndex <$> chains Examples.mixed_midway).
Proof.
  apply (concurrency_ceiling Examples.mixed (fresh 2 2) Examples.mixed_midway).
  - reflexivity.
  - simpl. lia.
  - exists [TaskSettles 0; Resumes 0; TaskSettles 1]%nat.
    vm_compute. reflexivity.
Defined.

(** ** Retries inside a run *)

Lemma for_attempts_calls_le (R : Z) (fn : task) (n : nat) :
  forall attempt theError calls seg,
    (calls <= outcome_calls
                (for_attempts never fn R n attempt theError calls seg))%nat.
Proof.
  induction n as [|n IH]; intros attempt theError calls seg; simpl; [lia|].
  unfold after_await, never. simpl.
  destruct (fn calls) as [v|err]; simpl; [lia|].
  rewrite andb_true_r.
  destruct (attempt <? R);
    (eapply Nat.le_trans; [|apply IH]; lia).
Qed.

Lemma continue_calls_le (R : Z) (fn : task) (s : suspended)
    (calls seg : nat) :
  (calls <= outcome_calls (continue never R fn s calls seg))%nat.
Proof.
  destruct s as [a e p|a e [w|]|c]; simpl; try lia.
  - unfold after_await, never. simpl. destruct p as [v|err]; simpl; [lia|].
    rewrite andb_true_r. destruct (a <? R); apply for_attempts_calls_le.
  - apply for_attempts_calls_le.
Qed.

Section RunWithoutCancellation.
Variable ts : list task.
Variable q q' : state.
Variable i : nat.
Variable fn : task.
Hypothesis Hidle : idle q.
Hypothesis Hfn : ts !! i = Some fn.
Hypothesis Hreach : reachable (run ts q) q'.
Hypothesis Hnever : aborted q' = false.

(** A written slot holds what the direct-style call returns, and the task
    was invoked as often as that call does. *)
Lemma written_without_cancellation (r : result) :
  results q' !! i = Some (Filled r) ->
  exists o, r = record_of o /\
    runTaskWithRetry never fn (retryAttempts q) = Finished o (invocations q' i).
Proof.
  intros Hr. pose proof (inv_reachable ts q q' Hidle Hreach) as I.
  pose proof (lookup_lt_Some _ _ _ Hfn) as Hi.
  assert (Hat : fn_at ts i = fn) by (unfold fn_at; by rewrite Hfn).
  destruct (decide (i < nextTaskIndex q')%nat) as [Hlt|Hge].
  - destruct (decide (i ∈ in_flight q')) as [Hin|Hnot].
    + apply list_elem_of_fmap in Hin as (c & -> & Hc).
      destruct (inv_chain _ _ _ _ I c Hc) as (_ & _ & Hnull & _). congruence.
    + destruct (inv_done _ _ _ _ I i Hlt Hnot) as [o Ho].
      destruct (inv_log _ _ _ _ I i o Ho) as (_ & _ & Hr' & b & Hb & Hrch).
      exists o. split; [congruence|].
      destruct b; [specialize (Hb eq_refl); congruence|].
      rewrite Hat in Hrch. by apply reach_settled.
  - destruct (inv_unclaimed _ _ _ _ I i ltac:(lia)) as [_ Hr'].
    destruct (resolveQueue q') as [| |rs] eqn:HP; try congruence.
    destruct (inv_resolved _ _ _ _ I rs HP) as (_ & _ & Hab).
    rewrite Hab in Hnever by lia. discriminate.
Qed.

(** At no time has the task been invoked more often than the direct-style
    call invokes it. *)
Lemma invocations_without_cancellation (o : completion) (n : nat) :
  runTaskWithRetry never fn (retryAttempts q) = Finished o n ->
  (invocations q' i <= n)%nat.
Proof.
  intros Hdirect. pose proof (inv_reachable ts q q' Hidle Hreach) as I.
  pose proof (lookup_lt_Some _ _ _ Hfn) as Hi.
  assert (Hat : fn_at ts i = fn) by (unfold fn_at; by rewrite Hfn).
  destruct (decide (i < nextTaskIndex q')%nat) as [Hlt|Hge].
  - destruct (decide (i ∈ in_flight q')) as [Hin|Hnot].
    + apply list_elem_of_fmap in Hin as (c & -> & Hc).
      destruct (inv_chain _ _ _ _ I c Hc) as (_ & Hc' & _ & Hrch).
      rewrite Hc', Hat, Hnever in Hrch.
      destruct (reach_never _ _ _ _ Hrch) as [seg E].
      pose proof (continue_calls_le (retryAttempts q) fn (awaiting c)
                    (invocations q' (currentIndex c)) seg) as Hle.
      rewrite <- E, Hdirect in Hle. exact Hle.
    + destruct (inv_done _ _ _ _ I i Hlt Hnot) as [o' Ho].
      destruct (inv_log _ _ _ _ I i o' Ho) as (_ & _ & _ & b & Hb & Hrch).
      destruct b; [specialize (Hb eq_refl); congruence|].
      rewrite Hat in Hrch. apply reach_settled in Hrch.
      rewrite Hdirect in Hrch. injection Hrch as _ ->. lia.
  - destruct (inv_unclaimed _ _ _ _ I i ltac:(lia)) as [-> _]. lia.
Qed.

End RunWithoutCancellation.

(** C3: a task that fails exactly [K] times and then succeeds, with
    [K < retryAttempts] and no cancellation.  The call of
    [runTaskWithRetry] returns the success record with the value of the
    succeeding attempt after [K + 1] invocations; in a run, the task is at
    no time invoked more than [K + 1] times, and once its slot is written
    the slot holds that success record and the task has been invoked
    exactly [K + 1] times. *)
Theorem retry_until_success (ts : list task) (q q' : state) (i : nat)
    (fn : task) (K : nat) (v : value) :
  fails_then_succeeds fn K v -> Z.of_nat K < retryAttempts q ->
  idle q -> ts !! i = Some fn -> reachable (run ts q) q' ->
  aborted q' = false ->
  runTaskWithRetry never fn (retryAttempts q)
    = Finished (Return (Success v)) (S K) /\
  (invocations q' i <= S K)%nat /\
  forall r, results q' !! i = Some (Filled r) ->
    r = Success v /\ invocations q' i = S K.
Proof.
  intros Hfn HK Hidle Hi Hreach Hnever.
  pose proof (runTaskWithRetry_success (retryAttempts q) fn K v Hfn
                ltac:(lia)) as Hdirect.
  split; [exact Hdirect|]. split.
  - exact (invocations_without_cancellation ts q q' i fn Hidle Hi Hreach
             Hnever _ _ Hdirect).
  - intros r Hr.
    destruct (written_without_cancellation ts q q' i fn Hidle Hi Hreach
                Hnever r Hr) as (o & -> & Ho).
    rewrite Hdirect in Ho. injection Ho as <- <-. auto.
Qed.

(** C4: a task that fails on every attempt, with [retryAttempts = 3] and
    no cancellation, [err] being the failure of its fourth invocation.  The
    call of [runTaskWithRetry] returns the captured record with [err]
    made an Error (left as it is when it is one) after 4 invocations; in a
    run the task is at no time invoked more than 4 times, and once its slot
    is written the slot holds that record and the task has been invoked
    exactly 4 times. *)
Theorem retry_exhausted (ts : list task) (q q' : state) (i : nat)
    (fn : task) (err : value) :
  always_fails fn -> fn 3%nat = Reject err -> retryAttempts q = 3 ->
  idle q -> ts !! i = Some fn -> reachable (run ts q) q' ->
  aborted q' = false ->
  runTaskWithRetry never fn 3
    = Finished (Return (Captured (to_Error err))) 4 /\
  (instanceof_Error err = true -> to_Error err = err) /\
  (invocations q' i <= 4)%nat /\
  forall r, results q' !! i = Some (Filled r) ->
    r = Captured (to_Error err) /\ invocations q' i = 4%nat.
Proof.
  intros Hfn Hlast HR Hidle Hi Hreach Hnever.
  pose proof (runTaskWithRetry_exhausted 3 fn err Hfn ltac:(lia) Hlast)
    as Hdirect.
  change (S (Z.to_nat 3)) with 4%nat in Hdirect.
  split; [exact Hdirect|]. split.
  { unfold to_Error. by intros ->. }
  rewrite <- HR in Hdirect. split.
  - exact (invocations_without_cancellation ts q q' i fn Hidle Hi Hreach
             Hnever _ _ Hdirect).
  - intros r Hr.
    destruct (written_without_cancellation ts q q' i fn Hidle Hi Hreach
                Hnever r Hr) as (o & -> & Ho).
    rewrite Hdirect in Ho. injection Ho as <- <-. auto.
Qed.

Lemma retry_until_success_witness :
  runTaskWithRetry never Examples.flaky (retryAttempts (fresh 1 3))
    = Finished (Return (Success (VString "ok"))) 3 /\
  (invocations Examples.flaky_done 0 <= 3)%nat /\
  forall r, results Examples.flaky_done !! 0%nat = Some (Filled r) ->
    r = Success (VString "ok") /\ invocations Examples.flaky_done 0 = 3%nat.
Proof.
  apply (retry_until_success [Examples.flaky] (fresh 1 3) Examples.flaky_done
           0 Examples.flaky 2 (VString "ok")).
  - split; [|reflexivity].
    intros [|[|k]] Hk; [by eexists | by eexists | lia].
  - simpl. lia.
  - reflexivity.
  - reflexivity.
  - exists Examples.retry_events. vm_compute. reflexivity.
  - vm_compute. reflexivity.
Defined.

Lemma retry_exhausted_witness :
  runTaskWithRetry never (Examples.failing "permanent") 3
    = Finished (Return (Captured (to_Error (VError "permanent")))) 4 /\
  (instanceof_Error (VError "permanent") = true ->
   to_Error (VError "permanent") = VError "permanent") /\
  (invocations Examples.failing_done 0 <= 4)%nat /\
  forall r, results Examples.failing_done !! 0%nat = Some (Filled r) ->
    r = Captured (to_Error (VError "permanent")) /\
    invocations Examples.failing_done 0 = 4%nat.
Proof.
  apply (retry_exhausted [Examples.failing "permanent"] (fresh 1 3)
           Examples.failing_done 0 (Examples.failing "permanent")).
  - intros k. by eexists.
  - reflexivity.
  - reflexivity.
  - reflexivity.
  - reflexivity.
  - exists Examples.exhaust_events. vm_compute. reflexivity.
  - vm_compute. reflexivity.
Defined.

(** ** Cancellation during a backoff wait *)

Lemma chains_processNext (q : state) (c : chain) :
  c ∈ chains q -> c ∈ chains (_processNext q).
Proof.
  intros Hc. unfold _processNext, _checkCompletion.
  destruct ((length (tasks q) <=? nextTaskIndex q)%nat || aborted q).
  - destruct (runningCount q =? 0); assumption.
  - simpl. apply elem_of_app. by left.
Qed.

(** No event moves a chain whose timer has been cleared. *)
Lemma timer_cleared_step (ev : event) (q q' : state) (c : chain) :
  timer_cleared c -> c ∈ chains q -> step ev q = Some q' -> c ∈ chains q'.
Proof.
  intros (a & e & Hc) Hin Hstep.
  assert (Hrest : forall i c0 rest,
            take i (chains q) = Some (c0, rest) -> awaiting c0 <> awaiting c ->
            c ∈ rest).
  { intros i c0 rest Htake Hne. destruct (take_spec _ _ _ _ Htake) as [P _].
    rewrite P in Hin.
    apply elem_of_cons in Hin as [->|Hin]; [done|assumption]. }
  destruct ev as [i|i|i|]; simpl in Hstep.
  - destruct (take i (chains q)) as [[c0 rest]|] eqn:Htake; [|discriminate].
    destruct (awaiting c0) eqn:Hs; try discriminate. injection Hstep as <-.
    simpl. right. eapply Hrest; [exact Htake|congruence].
  - destruct (take i (chains q)) as [[c0 rest]|] eqn:Htake; [|discriminate].
    destruct (awaiting c0) as [|a0 e0 [w|]|] eqn:Hs; try discriminate.
    injection Hstep as <-. simpl. right.
    eapply Hrest; [exact Htake|congruence].
  - destruct (take i (chains q)) as [[c0 rest]|] eqn:Htake; [|discriminate].
    destruct (awaiting c0) eqn:Hs; try discriminate. injection Hstep as <-.
    unfold finish. apply chains_processNext. simpl.
    eapply Hrest; [exact Htake|congruence].
  - injection Hstep as <-. unfold cancelAll.
    destruct (abortController q) as [[|]|]; try assumption. simpl.
    apply list_elem_of_fmap. exists c. split; [|assumption].
    destruct c as [ci cf cs]. simpl in Hc. subst cs. reflexivity.
Qed.

Lemma timer_cleared_exec (evs : list event) (q q' : state) (c : chain) :
  timer_cleared c -> c ∈ chains q -> exec evs q = Some q' -> c ∈ chains q'.
Proof.
  intros Hc. revert q. induction evs as [|ev evs IH]; intros q Hin Hexec;
    simpl in Hexec.
  - by injection Hexec as <-.
  - destruct (step ev q) as [q1|] eqn:Hstep; [|discriminate].
    eapply IH; [|exact Hexec]. eapply timer_cleared_step; eauto.
Qed.

(** A timer is cleared by an abort only. *)
Lemma cleared_timer_reach (R : Z) (fn : task) (b : bool) (s : suspended)
    (n : nat) :
  reach R fn b s n ->
  forall a e, s = AwaitBackoff a e None -> b = true.
Proof.
  induction 1 as [|b s calls s' calls' H IH Hres|b s calls H IH].
  - intros a e E. unfold start, loop_head in E.
    destruct (0 <=? R); discriminate.
  - resumed Hres s; intros a' e' E.
    + unfold after_attempt, loop_head in E.
      destruct p as [v|err]; [discriminate|].
      destruct ((a <? R) && negb b); [discriminate|].
      destruct (a + 1 <=? R); [destruct b|]; discriminate.
    + unfold after_backoff, loop_head in E.
      destruct (a + 1 <=? R); [destruct b|]; discriminate.
  - reflexivity.
Qed.

Lemma take_complete (c : chain) (l : list chain) :
  c ∈ l -> NoDup (currentIndex <$> l) ->
  exists rest, take (currentIndex c) l = Some (c, rest).
Proof.
  induction l as [|c0 l IH]; intros Hin ND.
  - by apply elem_of_nil in Hin.
  - simpl in ND. apply NoDup_cons in ND as [Hnot ND]. simpl.
    apply elem_of_cons in Hin as [->|Hin].
    + rewrite Nat.eqb_refl. eauto.
    + destruct (currentIndex c0 =? currentIndex c)%nat eqn:E.
      * apply Nat.eqb_eq in E. exfalso. apply Hnot. rewrite E.
        by apply list_elem_of_fmap_2.
      * destruct (IH Hin ND) as [rest ->]. eauto.
Qed.

(** Without cancellation no chain is ever stuck: the event a suspended
    chain waits for can happen. *)
Lemma progress_without_cancellation (ts : list task) (q q' : state)
    (c : chain) :
  idle q -> reachable (run ts q) q' -> aborted q' = false -> c ∈ chains q' ->
  exists ev q'', step ev q' = Some q''.
Proof.
  intros Hidle Hreach Hab Hc.
  pose proof (inv_reachable ts q q' Hidle Hreach) as I.
  destruct (take_complete c (chains q') Hc (inv_nodup _ _ _ _ I))
    as [rest Htake].
  destruct (inv_chain _ _ _ _ I c Hc) as (_ & _ & _ & Hrch).
  destruct (awaiting c) as [a e p|a e [w|]|o] eqn:Hs.
  - exists (TaskSettles (currentIndex c)). simpl. rewrite Htake, Hs. eauto.
  - exists (TimerFires (currentIndex c)). simpl. rewrite Htake, Hs. eauto.
  - pose proof (cleared_timer_reach _ _ _ _ _ Hrch a e eq_refl). congruence.
  - exists (Resumes (currentIndex c)). simpl. rewrite Htake, Hs. eauto.
Qed.

(** The direct-style call when the signal is aborted during the first
    backoff wait. *)
Lemma runTaskWithRetry_hangs (R : Z) (fn : task) (err : value) :
  0 < R -> fn 0%nat = Reject err ->
  runTaskWithRetry (aborted_during 1) fn R = Hangs 1.
Proof.
  intros HR Hfail. unfold runTaskWithRetry.
  replace (Z.to_nat (R + 1)) with (S (Z.to_nat R)) by lia.
  simpl. unfold after_await. rewrite Hfail.
  assert (E : (0 <? R) = true) by (apply Z.ltb_lt; lia).
  rewrite E. reflexivity.
Qed.

(** C5, as the code behaves: when [cancelAll()] is called while a chain is
    in its backoff wait, the listener clears the timer and nothing resolves
    the promise of the wait.  From then on the chain stays suspended in
    that wait, its slot stays [null] and the promise of the run stays
    pending, whatever happens next. *)
Theorem cancel_during_backoff_hangs (ts : list task) (q q1 q' : state)
    (c : chain) (attempt : Z) (theError : value) (w : Z) :
  idle q -> reachable (run ts q) q1 -> aborted q1 = false ->
  c ∈ chains q1 -> awaiting c = AwaitBackoff attempt theError (Some w) ->
  reachable (cancelAll q1) q' ->
  Chain (currentIndex c) (taskFn c) (AwaitBackoff attempt theError None)
    ∈ chains q' /\
  results q' !! currentIndex c = Some Null /\
  resolveQueue q' = Pending.
Proof.
  intros Hidle Hreach Hab Hc Hs [evs Hexec].
  pose proof (inv_reachable ts q q1 Hidle Hreach) as I1.
  set (c' := Chain (currentIndex c) (taskFn c)
               (AwaitBackoff attempt theError None)).
  assert (Hin : c' ∈ chains (cancelAll q1)).
  { unfold cancelAll. destruct (inv_ctrl _ _ _ _ I1) as [b Hb].
    unfold aborted in Hab. rewrite Hb in *. simpl in Hab. subst b. simpl.
    apply list_elem_of_fmap. exists c. split; [|assumption].
    unfold chain_on_abort, c'. by rewrite Hs. }
  assert (Hin' : c' ∈ chains q').
  { eapply timer_cleared_exec; [|exact Hin|exact Hexec].
    by exists attempt, theError. }
  assert (I' : inv ts (maxAtSameTime q) (retryAttempts q) q').
  { eapply inv_exec; [|exact Hexec]. by apply inv_cancelAll. }
  split; [assumption|]. split.
  - by destruct (inv_chain _ _ _ _ I' c' Hin') as (_ & _ & ? & _).
  - destruct (resolveQueue q') as [| |rs] eqn:HP; [|reflexivity|].
    + by destruct (inv_promise _ _ _ _ I').
    + destruct (inv_resolved _ _ _ _ I' rs HP) as (_ & Hnil & _).
      rewrite Hnil in Hin'. by apply elem_of_nil in Hin'.
Qed.

Lemma cancel_during_backoff_hangs_witness :
  Chain 0 (Examples.failing "x") (AwaitBackoff 0 (VError "x") None)
    ∈ chains Examples.backoff_cancelled /\
  results Examples.backoff_cancelled !! 0%nat = Some Null /\
  resolveQueue Examples.backoff_cancelled = Pending.
Proof.
  apply (cancel_during_backoff_hangs [Examples.failing "x"] (fresh 1 1)
           Examples.in_backoff Examples.backoff_cancelled
           (Chain 0 (Examples.failing "x")
              (AwaitBackoff 0 (VError "x") (Some 100)))
           0 (VError "x") 100).
  - reflexivity.
  - exists [TaskSettles 0%nat]. vm_compute. reflexivity.
  - vm_compute. reflexivity.
  - vm_compute. left.
  - reflexivity.
  - exists []. vm_compute. reflexivity.
Defined.

(** ** Empty input *)

(** With no chain suspended the only event that can happen is a call of
    [cancelAll()], and it leaves the promise, the results and the call
    counts alone. *)
Lemma idle_exec (evs : list event) (q q' : state) :
  chains q = [] -> exec evs q = Some q' ->
  chains q' = [] /\ resolveQueue q' = resolveQueue q /\
  results q' = results q /\ calls q' = calls q /\
  completions q' = completions q.
Proof.
  revert q. induction evs as [|ev evs IH]; intros q Hnil Hexec; simpl in Hexec.
  - injection Hexec as <-. auto.
  - destruct (step ev q) as [q1|] eqn:Hstep; [|discriminate].
    assert (H1 : q1 = cancelAll q).
    { destruct ev; simpl in Hstep; rewrite ?Hnil in Hstep; simpl in Hstep;
        congruence. }
    assert (H2 : chains q1 = [] /\ resolveQueue q1 = resolveQueue q /\
                 results q1 = results q /\ calls q1 = calls q /\
                 completions q1 = completions q).
    { subst q1. unfold cancelAll.
      destruct (abortController q) as [[|]|]; simpl; rewrite ?Hnil; auto. }
    destruct H2 as (N1 & P1 & R1 & C1 & L1).
    destruct (IH q1 N1 Hexec) as (? & ? & ? & ? & ?).
    repeat split; congruence.
Qed.

(** C7: [run([])] returns a promise that is already resolved with the
    empty array; it starts no chain and calls no task, and no later event
    changes that. *)
Theorem run_empty (q q' : state) :
  idle q -> reachable (run [] q) q' ->
  resolveQueue (run [] q) = Resolved [] /\
  chains (run [] q) = [] /\
  resolveQueue q' = Resolved [] /\
  chains q' = [] /\ calls q' = [] /\ completions q' = [].
Proof.
  intros Hidle [evs Hexec]. unfold idle in Hidle.
  assert (H0 : resolveQueue (run [] q) = Resolved [] /\
               chains (run [] q) = [] /\ calls (run [] q) = [] /\
               completions (run [] q) = []).
  { unfold run. simpl. auto. }
  destruct H0 as (P0 & N0 & C0 & L0).
  destruct (idle_exec evs _ q' N0 Hexec) as (? & ? & ? & ? & ?).
  repeat split; congruence.
Qed.

Lemma run_empty_witness :
  resolveQueue (run [] (fresh 2 3)) = Resolved [] /\
  chains (run [] (fresh 2 3)) = [] /\
  resolveQueue (after [CancelAll] (run [] (fresh 2 3))) = Resolved [] /\
  chains (after [CancelAll] (run [] (fresh 2 3))) = [] /\
  calls (after [CancelAll] (run [] (fresh 2 3))) = [] /\
  completions (after [CancelAll] (run [] (fresh 2 3))) = [].
Proof.
  apply (run_empty (fresh 2 3) (after [CancelAll] (run [] (fresh 2 3)))).
  - reflexivity.
  - exists [CancelAll]. vm_compute. reflexivity.
Defined.

(** ** [cancelAll()] before any run *)

(** C9: on an object the constructor has built and on which [run] was not
    called, [this.abortController] is [null]; [cancelAll()] returns and
    leaves the object as it is, so a later [run] starts from the same
    state.  The same holds for every state without a controller. *)
Theorem cancelAll_before_run (x : arg) (r : option Z) (q : state)
    (ts : list task) :
  new_AsyncQueue x r = inr q ->
  abortController q = None /\
  cancelAll q = q /\
  run ts (cancelAll q) = run ts q /\
  forall q0 : state, abortController q0 = None -> cancelAll q0 = q0.
Proof.
  intros Hnew. destruct (new_AsyncQueue_inr x r q Hnew) as (_ & Hac & _).
  assert (G : forall q0 : state,
            abortController q0 = None -> cancelAll q0 = q0).
  { intros q0 H0. unfold cancelAll. by rewrite H0. }
  split; [assumption|]. split; [by apply G|]. split; [|assumption].
  by rewrite (G q Hac).
Qed.

Lemma cancelAll_before_run_witness :
  abortController (fresh 2 3) = None /\
  cancelAll (fresh 2 3) = fresh 2 3 /\
  run Examples.mixed (cancelAll (fresh 2 3)) = run Examples.mixed (fresh 2 3) /\
  forall q0 : state, abortController q0 = None -> cancelAll q0 = q0.
Proof.
  apply (cancelAll_before_run (Num (Finite (inject_Z 2))) None (fresh 2 3)
           Examples.mixed).
  vm_compute. reflexivity.
Defined.

(** ** Records caused by cancellation *)

(** C8 as stated fails: in the first resolved run both tasks end by
    cancellation, the first because its retry loop observed the signal,
    the second because it was never claimed, and their records carry
    different messages.  Nor does a message by itself tell a cancellation
    from a task failure: in the second run nothing is cancelled and the
    record carries the message of [_checkCompletion]. *)
Lemma cancellation_two_messages :
  (reachable (run [Examples.failing "x"; Examples.ok "b"] (fresh 1 1))
     Examples.both_cancelled /\
   resolveQueue Examples.both_cancelled
     = Resolved [Filled (Captured (VError "Task cancelled"));
                 Filled (Captured (VError "Task cancelled via cancelAll()"))] /\
   due_to_cancellation Examples.both_cancelled 0 /\
   due_to_cancellation Examples.both_cancelled 1 /\
   ~ exists msg : string, forall (i : nat) (r : result),
       due_to_cancellation Examples.both_cancelled i ->
       results Examples.both_cancelled !! i = Some (Filled r) ->
       r = Captured (VError msg)) /\
  (reachable
     (run [Examples.failing "Task cancelled via cancelAll()"] (fresh 1 0))
     Examples.lookalike_done /\
   resolveQueue Examples.lookalike_done
     = Resolved [Filled (Captured (VError "Task cancelled via cancelAll()"))] /\
   aborted Examples.lookalike_done = false /\
   ~ due_to_cancellation Examples.lookalike_done 0).
Proof.
  assert (D0 : due_to_cancellation Examples.both_cancelled 0).
  { right. exists cancelled. vm_compute. left. }
  assert (D1 : due_to_cancellation Examples.both_cancelled 1).
  { left. vm_compute. lia. }
  split.
  - split; [exists Examples.cancel_events; vm_compute; reflexivity|].
    split; [vm_compute; reflexivity|]. split; [assumption|].
    split; [assumption|]. intros [msg H].
    pose proof (H 0%nat (Captured (VError "Task cancelled")) D0 eq_refl) as E0.
    pose proof (H 1%nat (Captured (VError "Task cancelled via cancelAll()")) D1
                  eq_refl) as E1.
    congruence.
  - split; [exists [TaskSettles 0; Resumes 0]%nat; vm_compute; reflexivity|].
    split; [vm_compute; reflexivity|]. split; [vm_compute; reflexivity|].
    intros [Hge|[err Hlog]].
    + vm_compute in Hge. lia.
    + vm_compute in Hlog. apply list_elem_of_singleton in Hlog. discriminate.
Qed.

(** C8, amended: in a resolved run, the slot of an index that was never
    claimed holds the captured record with the message
    'Task cancelled via cancelAll()', and the slot of a task whose retry
    loop threw on the aborted signal holds the captured record with the
    message 'Task cancelled'; the loop throws nothing else, and the two
    messages differ.  As long as no task fails with an error that reads
    like one of the two, a record that carries one of them is due to
    cancellation. *)
Theorem cancellation_records (ts : list task) (q q' : state) (rs : list slot)
    (i : nat) :
  idle q -> reachable (run ts q) q' -> resolveQueue q' = Resolved rs ->
  (i < length ts)%nat ->
  ((nextTaskIndex q' <= i)%nat ->
     rs !! i
     = Some (Filled (Captured (VError "Task cancelled via cancelAll()")))) /\
  (forall err, (i, Throw err) ∈ completions q' ->
     err = VError "Task cancelled" /\
     rs !! i = Some (Filled (Captured (VError "Task cancelled")))) /\
  VError "Task cancelled" <> VError "Task cancelled via cancelAll()" /\
  (no_task_fails_cancelled ts ->
   rs !! i = Some (Filled (Captured (VError "Task cancelled"))) \/
   rs !! i
   = Some (Filled (Captured (VError "Task cancelled via cancelAll()"))) ->
   due_to_cancellation q' i).
Proof.
  intros Hidle Hreach HP Hi.
  pose proof (inv_reachable ts q q' Hidle Hreach) as I.
  destruct (inv_resolved _ _ _ _ I rs HP) as (-> & Hnil & _).
  split; [|split; [|split; [discriminate|]]].
  - intros Hge. destruct (inv_unclaimed _ _ _ _ I i ltac:(lia)) as [_ Hr].
    by rewrite HP in Hr.
  - intros err Hlog.
    destruct (inv_log _ _ _ _ I i _ Hlog) as (_ & _ & Hr & b & _ & Hrch).
    destruct (reach_throw _ _ _ _ _ Hrch err eq_refl) as [-> _].
    split; [reflexivity|exact Hr].
  - intros Hno Hrec.
    destruct (decide (i < nextTaskIndex q')%nat) as [Hlt|Hge]; [|left; lia].
    destruct (inv_done _ _ _ _ I i Hlt) as [o Ho].
    { unfold in_flight. rewrite Hnil. apply not_elem_of_nil. }
    destruct o as [r|err]; [|right; eauto]. exfalso.
    destruct (inv_log _ _ _ _ I i _ Ho) as (_ & _ & Hr & b & _ & Hrch).
    apply reach_failure in Hrch. simpl in Hr.
    assert (Hr' : r = Captured cancelled \/ r = Captured cancelErr).
    { destruct Hrec as [E|E]; rewrite E in Hr; injection Hr as <-; auto. }
    assert (Hcapt : exists e, r = Captured e /\
                      (e = cancelled \/ e = cancelErr)).
    { destruct Hr' as [->| ->]; eauto. }
    destruct Hcapt as (e & -> & He).
    destruct Hrch as (err & [->|[k Hk]] & ->).
    + destruct He as [He|He]; discriminate.
    + destruct (lookup_lt_is_Some_2 ts i Hi) as [fn Hfn].
      assert (Hin : fn ∈ ts) by (eapply list_elem_of_lookup_2; eauto).
      unfold fn_at in Hk. rewrite Hfn in Hk. simpl in Hk.
      destruct (Hno fn k err Hin Hk) as [N1 N2].
      destruct He; congruence.
Qed.

Lemma cancellation_records_witness :
  ((nextTaskIndex Examples.both_cancelled <= 1)%nat ->
     [Filled (Captured (VError "Task cancelled"));
      Filled (Captured (VError "Task cancelled via cancelAll()"))] !! 1%nat
     = Some (Filled (Captured (VError "Task cancelled via cancelAll()")))) /\
  (forall err, (1%nat, Throw err) ∈ completions Examples.both_cancelled ->
     err = VError "Task cancelled" /\
     [Filled (Captured (VError "Task cancelled"));
      Filled (Captured (VError "Task cancelled via cancelAll()"))] !! 1%nat
     = Some (Filled (Captured (VError "Task cancelled")))) /\
  VError "Task cancelled" <> VError "Task cancelled via cancelAll()" /\
  (no_task_fails_cancelled [Examples.failing "x"; Examples.ok "b"] ->
   [Filled (Captured (VError "Task cancelled"));
    Filled (Captured (VError "Task cancelled via cancelAll()"))] !! 1%nat
   = Some (Filled (Captured (VError "Task cancelled"))) \/
   [Filled (Captured (VError "Task cancelled"));
    Filled (Captured (VError "Task cancelled via cancelAll()"))] !! 1%nat
   = Some (Filled (Captured (VError "Task cancelled via cancelAll()"))) ->
   due_to_cancellation Examples.both_cancelled 1).
Proof.
  apply (cancellation_records [Examples.failing "x"; Examples.ok "b"]
           (fresh 1 1) Examples.both_cancelled).
  - reflexivity.
  - exists Examples.cancel_events. vm_compute. reflexivity.
  - vm_compute. reflexivity.
  - simpl. lia.
Defined.

(** ** A negative retry budget *)

(** C10 as stated fails: with [retryAttempts = -1] and [cancelAll()] called
    right after [run], the second task is never claimed and its record is
    the cancellation record, not the normalisation of [null]. *)
Lemma negative_retry_cancelled :
  new_AsyncQueue (Num (Finite (inject_Z 1))) (Some (-1)) = inr (fresh 1 (-1)) /\
  reachable (run [Examples.ok "a"; Examples.ok "b"] (fresh 1 (-1)))
    Examples.negative_cancelled /\
  resolveQueue Examples.negative_cancelled
    = Resolved [Filled (Captured (VError "null"));
                Filled (Captured (VError "Task cancelled via cancelAll()"))] /\
  ~ (forall (i : nat) (r : result),
       results Examples.negative_cancelled !! i = Some (Filled r) ->
       r = Captured (to_Error VNull)).
Proof.
  split; [vm_compute; reflexivity|].
  split; [exists [CancelAll; Resumes 0%nat]; vm_compute; reflexivity|].
  split; [vm_compute; reflexivity|]. intros H.
  pose proof (H 1%nat (Captured (VError "Task cancelled via cancelAll()"))
                eq_refl) as E.
  discriminate.
Qed.

Lemma new_AsyncQueue_positive (w : Q) (n : Z) (r : option Z) :
  1 <= n -> (w == inject_Z n)%Q ->
  new_AsyncQueue (Num (Finite w)) r = inr (fresh n (default 3 r)).
Proof.
  intros Hn Hw. unfold new_AsyncQueue.
  assert (A : lt_1 (Num (Finite w)) || negb (Number_isInteger (Num (Finite w)))
              = false).
  { apply accepted_iff. exists n, w. auto. }
  rewrite A. unfold fresh. do 2 f_equal.
  destruct w as [a d]. unfold Qeq in Hw. simpl in *.
  replace a with (n * Zpos d) by lia. apply Z_div_mult. lia.
Qed.

(** C10, amended: the constructor accepts a negative [retryAttempts].  In a
    run of such a queue no task is ever invoked; a call of
    [runTaskWithRetry] returns the captured record of [new Error('null')]
    at once, so every claimed task gets that record, and every task does
    when [cancelAll()] is not called; an index that a cancellation leaves
    unclaimed gets the cancellation record instead. *)
Theorem negative_retryAttempts (w : Q) (n r : Z) (ts : list task)
    (q' : state) :
  r < 0 -> 1 <= n -> (w == inject_Z n)%Q ->
  reachable (run ts (fresh n r)) q' ->
  new_AsyncQueue (Num (Finite w)) (Some r) = inr (fresh n r) /\
  (forall signal fn,
     runTaskWithRetry signal fn r
     = Finished (Return (Captured (VError "null"))) 0) /\
  (forall i, invocations q' i = 0%nat) /\
  (forall i res, results q' !! i = Some (Filled res) ->
     ((i < nextTaskIndex q')%nat -> res = Captured (VError "null")) /\
     ((nextTaskIndex q' <= i)%nat ->
        res = Captured cancelErr /\ aborted q' = true)) /\
  (forall rs, resolveQueue q' = Resolved rs -> aborted q' = false ->
     forall i, (i < length ts)%nat ->
       rs !! i = Some (Filled (Captured (VError "null")))).
Proof.
  intros Hr Hn Hw Hreach.
  pose proof (inv_reachable ts (fresh n r) q' eq_refl Hreach) as I.
  simpl in I.
  assert (Hlog : forall i o, (i, o) ∈ completions q' ->
            results q' !! i = Some (Filled (Captured (VError "null"))) /\
            invocations q' i = 0%nat).
  { intros i o Hio.
    destruct (inv_log _ _ _ _ I i o Hio) as (_ & _ & Hres & b & _ & Hrch).
    destruct (reach_negative _ _ _ _ _ Hr Hrch) as [[= ->] Hz]. auto. }
  assert (Hflight : forall i, i ∈ in_flight q' ->
            results q' !! i = Some Null /\ invocations q' i = 0%nat).
  { intros i Hin. apply list_elem_of_fmap in Hin as (c & -> & Hc).
    destruct (inv_chain _ _ _ _ I c Hc) as (_ & _ & Hnull & Hrch).
    destruct (reach_negative _ _ _ _ _ Hr Hrch) as [_ Hz]. auto. }
  split; [exact (new_AsyncQueue_positive w n (Some r) Hn Hw)|].
  split; [|split; [|split]].
  - intros signal fn. unfold runTaskWithRetry.
    replace (Z.to_nat (r + 1)) with O by lia. reflexivity.
  - intros i. destruct (decide (i < nextTaskIndex q')%nat) as [Hlt|Hge].
    + destruct (decide (i ∈ in_flight q')) as [Hin|Hnot].
      * by destruct (Hflight i Hin).
      * destruct (inv_done _ _ _ _ I i Hlt Hnot) as [o Ho].
        by destruct (Hlog i o Ho).
    + destruct (decide (i < length ts)%nat) as [Hi|Hi].
      * by destruct (inv_unclaimed _ _ _ _ I i ltac:(lia)).
      * unfold invocations. rewrite lookup_ge_None_2; [reflexivity|].
        rewrite (inv_calls _ _ _ _ I). lia.
  - intros i res Hres. split.
    + intros Hlt. destruct (decide (i ∈ in_flight q')) as [Hin|Hnot].
      * destruct (Hflight i Hin). congruence.
      * destruct (inv_done _ _ _ _ I i Hlt Hnot) as [o Ho].
        destruct (Hlog i o Ho). congruence.
    + intros Hge. pose proof (lookup_lt_Some _ _ _ Hres) as Hi.
      rewrite (inv_results _ _ _ _ I) in Hi.
      destruct (inv_unclaimed _ _ _ _ I i ltac:(lia)) as [_ Hr'].
      destruct (resolveQueue q') as [| |rs] eqn:HP; try congruence.
      destruct (inv_resolved _ _ _ _ I rs HP) as (_ & _ & Hab).
      split; [congruence|]. apply Hab. lia.
  - intros rs HP Hab i Hi.
    destruct (inv_resolved _ _ _ _ I rs HP) as (-> & Hnil & Hab').
    assert (Hlt : (i < nextTaskIndex q')%nat).
    { destruct (decide (nextTaskIndex q' < length ts)%nat) as [Hc|Hc];
        [|lia]. rewrite Hab' in Hab by assumption. discriminate. }
    destruct (inv_done _ _ _ _ I i Hlt) as [o Ho].
    { unfold in_flight. rewrite Hnil. apply not_elem_of_nil. }
    by destruct (Hlog i o Ho).
Qed.

Lemma negative_retryAttempts_witness :
  new_AsyncQueue (Num (Finite (inject_Z 1))) (Some (-1)) = inr (fresh 1 (-1)) /\
  (forall signal fn,
     runTaskWithRetry signal fn (-1)
     = Finished (Return (Captured (VError "null"))) 0) /\
  (forall i, invocations Examples.negative_cancelled i = 0%nat) /\
  (forall i res, results Examples.negative_cancelled !! i = Some (Filled res) ->
     ((i < nextTaskIndex Examples.negative_cancelled)%nat ->
        res = Captured (VError "null")) /\
     ((nextTaskIndex Examples.negative_cancelled <= i)%nat ->
        res = Captured cancelErr /\
        aborted Examples.negative_cancelled = true)) /\
  (forall rs, resolveQueue Examples.negative_cancelled = Resolved rs ->
     aborted Examples.negative_cancelled = false ->
     forall i, (i < length [Examples.ok "a"; Examples.ok "b"])%nat ->
       rs !! i = Some (Filled (Captured (VError "null")))).
Proof.
  apply (negative_retryAttempts (inject_Z 1) 1 (-1)
           [Examples.ok "a"; Examples.ok "b"] Examples.negative_cancelled).
  - lia.
  - lia.
  - reflexivity.
  - exists [CancelAll; Resumes 0%nat]. vm_compute. reflexivity.
Defined.

(** * Further properties of the runner *)

(** ** The shape of a call *)

Section Shape.
Variable R : Z.
Variable fn : task.

Lemma all_rejected_S (n : nat) (err : value) :
  all_rejected fn n -> fn n = Reject err -> all_rejected fn (S n).
Proof.
  intros Hall Hn k Hk. destruct (decide (k = n)) as [->|Hne]; [eauto|].
  apply Hall. lia.
Qed.

(** The loop test, entered after [n] failed invocations. *)
Lemma shape_loop_head (b : bool) (n : nat) (attempt : Z) (e : value) :
  attempt = Z.of_nat n -> ((1 <= n)%nat -> attempt <= R + 1) ->
  all_rejected fn n ->
  (n = 0%nat -> e = VNull /\ b = false) ->
  ((1 <= n)%nat -> fn (pred n) = Reject e) ->
  shape R fn b (loop_head R b fn n attempt e).1
    (loop_head R b fn n attempt e).2.
Proof.
  intros Ha Hle Hall H0 H1. unfold loop_head.
  destruct (attempt <=? R) eqn:E.
  - apply Z.leb_le in E. destruct b; simpl.
    + assert (n <> 0%nat) by (intros Hn; destruct (H0 Hn); discriminate).
      split_and!; auto; lia.
    + replace (Z.to_nat attempt) with n by lia.
      split_and!; auto; lia.
  - apply Z.leb_gt in E. simpl. destruct n as [|n].
    + left. destruct (H0 eq_refl) as [-> _]. split_and!; auto; lia.
    + right. split_and!; [lia|lia|assumption|].
      exists e. split; [apply H1; lia|reflexivity].
Qed.

(** Every state of a call has the shape. *)
Lemma reach_shape (b : bool) (s : suspended) (n : nat) :
  reach R fn b s n -> shape R fn b s n.
Proof.
  induction 1 as [|b s calls s' calls' H IH Hres|b s calls H IH].
  - unfold start. apply shape_loop_head; try (auto; lia).
    intros k Hk. lia.
  - resumed Hres s; simpl in IH.
    + destruct IH as (Ha & -> & -> & Hall). unfold after_attempt.
      destruct (fn (Z.to_nat a)) as [v|err] eqn:Hp.
      * simpl. split_and!; auto; lia.
      * assert (Hall' : all_rejected fn (S (Z.to_nat a)))
          by (eapply all_rejected_S; eauto).
        destruct ((a <? R) && negb b) eqn:Hc.
        -- apply andb_true_iff in Hc as [Hlt Hb].
           apply Z.ltb_lt in Hlt. apply negb_true_iff in Hb.
           simpl. split_and!; auto; lia.
        -- apply shape_loop_head; auto; try lia.
    + destruct IH as (Ha & -> & Hrej & Hall & -> & ->).
      unfold after_backoff. apply shape_loop_head; auto; try lia.
  - destruct s as [a e p|a e [w|]|[[v|e]|err]]; simpl in *; auto.
    + destruct IH as (? & ? & ? & ? & _). auto.
    + destruct IH as (? & ? & ? & ? & _). auto.
    + destruct IH as (? & _ & ? & ? & ?). auto.
Qed.

End Shape.

Lemma shape_bound (R : Z) (fn : task) (b : bool) (s : suspended) (n : nat) :
  shape R fn b s n -> Z.of_nat n <= Z.max 0 (R + 1).
Proof.
  destruct s as [a e p|a e t|[[v|e]|err]]; simpl.
  - intros (? & -> & _). lia.
  - intros (? & -> & _). lia.
  - intros (? & ? & _). lia.
  - intros [(-> & _)|(_ & ? & _)]; lia.
  - intros (_ & _ & _ & ? & _). lia.
Qed.

Lemma to_Error_is_Error (e : value) : instanceof_Error (to_Error e) = true.
Proof. by destruct e. Qed.

(** Where an index of the task list stands in a state of a run: not
    claimed, in flight, or completed with its record written. *)
Lemma index_status (ts : list task) (q q' : state) (i : nat) (fn : task) :
  idle q -> reachable (run ts q) q' -> ts !! i = Some fn ->
  ((nextTaskIndex q' <= i)%nat /\ invocations q' i = 0%nat /\
   results q' !! i = Some (match resolveQueue q' with
                           | Resolved _ => Filled (Captured cancelErr)
                           | _ => Null
                           end) /\
   (forall rs, resolveQueue q' = Resolved rs -> aborted q' = true)) \/
  (exists c, c ∈ chains q' /\ currentIndex c = i /\ taskFn c = fn /\
     results q' !! i = Some Null /\
     reach (retryAttempts q) fn (aborted q') (awaiting c) (invocations q' i)) \/
  (exists o b, (i, o) ∈ completions q' /\ (i < nextTaskIndex q')%nat /\
     results q' !! i = Some (Filled (record_of o)) /\
     (b = true -> aborted q' = true) /\
     reach (retryAttempts q) fn b (Settled o) (invocations q' i)).
Proof.
  intros Hidle Hreach Hfn.
  pose proof (inv_reachable ts q q' Hidle Hreach) as I.
  pose proof (lookup_lt_Some _ _ _ Hfn) as Hi.
  assert (Hat : fn_at ts i = fn) by (unfold fn_at; by rewrite Hfn).
  destruct (decide (i < nextTaskIndex q')%nat) as [Hlt|Hge].
  - right. destruct (decide (i ∈ in_flight q')) as [Hin|Hnot].
    + left. apply list_elem_of_fmap in Hin as (c & -> & Hc).
      destruct (inv_chain _ _ _ _ I c Hc) as (_ & Hc' & Hnull & Hrch).
      rewrite Hat in Hc'. rewrite Hc' in Hrch. eauto 10.
    + right. destruct (inv_done _ _ _ _ I i Hlt Hnot) as [o Ho].
      destruct (inv_log _ _ _ _ I i o Ho) as (_ & _ & Hr & b & Hb & Hrch).
      rewrite Hat in Hrch. eauto 10.
  - left. destruct (inv_unclaimed _ _ _ _ I i ltac:(lia)) as [Hz Hr].
    split_and!; [lia|assumption|assumption|].
    intros rs HP. destruct (inv_resolved _ _ _ _ I rs HP) as (_ & _ & Hab).
    apply Hab. lia.
Qed.

(** The [error] of a captured record is an Error object. *)
Lemma written_captured_Error (ts : list task) (q q' : state) (i : nat)
    (e : value) :
  idle q -> reachable (run ts q) q' ->
  results q' !! i = Some (Filled (Captured e)) -> exists m, e = VError m.
Proof.
  intros Hidle Hreach Hr.
  pose proof (inv_reachable ts q q' Hidle Hreach) as I.
  pose proof (lookup_lt_Some _ _ _ Hr) as Hi.
  rewrite (inv_results _ _ _ _ I) in Hi.
  destruct (lookup_lt_is_Some_2 ts i Hi) as [fn Hfn].
  assert (E : forall x, exists m, to_Error x = VError m).
  { intros x. unfold to_Error. destruct x; simpl; eauto. }
  destruct (index_status ts q q' i fn Hidle Hreach Hfn)
    as [(_ & _ & Hr' & _)|[(c & _ & _ & _ & Hnull & _)
       |(o & b & _ & _ & Hr' & _ & Hrch)]].
  - destruct (resolveQueue q'); try congruence.
    exists "Task cancelled via cancelAll()". unfold cancelErr in Hr'.
    congruence.
  - congruence.
  - apply reach_shape in Hrch. rewrite Hr' in Hr. injection Hr as Hr.
    destruct o as [[v|e']|err]; simpl in Hr, Hrch.
    + discriminate.
    + injection Hr as ->.
      destruct Hrch as [(_ & _ & ->)|(_ & _ & _ & err & _ & ->)]; apply E.
    + injection Hr as <-. apply E.
Qed.

(** ** Invocations and records *)

(** X1: whatever the order of events and the timing of a cancellation, a
    task is invoked at most [retryAttempts + 1] times (not at all when that
    is not positive). *)
Theorem invocations_bounded (ts : list task) (q q' : state) (i : nat) :
  idle q -> reachable (run ts q) q' ->
  Z.of_nat (invocations q' i) <= Z.max 0 (retryAttempts q + 1).
Proof.
  intros Hidle Hreach.
  destruct (ts !! i) as [fn|] eqn:Hfn.
  - destruct (index_status ts q q' i fn Hidle Hreach Hfn)
      as [(_ & -> & _)|[(c & _ & _ & _ & _ & Hrch)
         |(o & b & _ & _ & _ & _ & Hrch)]].
    + lia.
    + exact (shape_bound _ _ _ _ _ (reach_shape _ _ _ _ _ Hrch)).
    + exact (shape_bound _ _ _ _ _ (reach_shape _ _ _ _ _ Hrch)).
  - pose proof (inv_reachable ts q q' Hidle Hreach) as I.
    apply lookup_ge_None_1 in Hfn. unfold invocations.
    rewrite lookup_ge_None_2; [simpl; lia|].
    rewrite (inv_calls _ _ _ _ I). lia.
Qed.

Lemma invocations_bounded_witness :
  Z.of_nat (invocations Examples.failing_done 0)
  <= Z.max 0 (retryAttempts (fresh 1 3) + 1).
Proof.
  apply (invocations_bounded [Examples.failing "permanent"] (fresh 1 3)
           Examples.failing_done 0).
  - reflexivity.
  - exists Examples.exhaust_events. vm_compute. reflexivity.
Defined.

(** X2: a chain waits in backoff only after a failed attempt that leaves
    retries, and only while the signal is not aborted; the delay of the
    armed timer is [100 * (attempt + 1)] ms (100 after the first failure,
    200 after the second, ...), and the task has been invoked
    [attempt + 1] times, each time failing. *)
Theorem backoff_delay (ts : list task) (q q' : state) (c : chain)
    (attempt : Z) (theError : value) (w : Z) :
  idle q -> reachable (run ts q) q' -> c ∈ chains q' ->
  awaiting c = AwaitBackoff attempt theError (Some w) ->
  w = 100 * (attempt + 1) /\
  0 <= attempt < retryAttempts q /\
  aborted q' = false /\
  Z.of_nat (invocations q' (currentIndex c)) = attempt + 1 /\
  taskFn c (Z.to_nat attempt) = Reject theError /\
  all_rejected (taskFn c) (invocations q' (currentIndex c)).
Proof.
  intros Hidle Hreach Hc Hs.
  pose proof (inv_reachable ts q q' Hidle Hreach) as I.
  destruct (inv_chain _ _ _ _ I c Hc) as (_ & _ & _ & Hrch).
  apply reach_shape in Hrch. rewrite Hs in Hrch. simpl in Hrch.
  destruct Hrch as (Ha & Hn & Hrej & Hall & -> & Hb).
  rewrite Hn in *. split_and!; auto; unfold waitTime; lia.
Qed.

Lemma backoff_delay_witness :
  100 = 100 * (0 + 1) /\
  0 <= 0 < retryAttempts (fresh 1 1) /\
  aborted Examples.in_backoff = false /\
  Z.of_nat (invocations Examples.in_backoff 0) = 0 + 1 /\
  Examples.failing "x" (Z.to_nat 0) = Reject (VError "x") /\
  all_rejected (Examples.failing "x") (invocations Examples.in_backoff 0).
Proof.
  apply (backoff_delay [Examples.failing "x"] (fresh 1 1) Examples.in_backoff
           (Chain 0 (Examples.failing "x")
              (AwaitBackoff 0 (VError "x") (Some 100)))
           0 (VError "x") 100).
  - reflexivity.
  - exists [TaskSettles 0%nat]. vm_compute. reflexivity.
  - vm_compute. left.
  - reflexivity.
Defined.

(** X3: what a written slot tells.  The record of [tasks[i]] is one of:
    the success of its last invocation, all earlier ones having failed; the
    failure of its last invocation made an Error, the retry budget being
    used up; [Error('null')] when the budget is negative and the task was
    never invoked; 'Task cancelled' when the signal was aborted after at
    least one and at most [retryAttempts] failed invocations; 'Task
    cancelled via cancelAll()' when the task was never claimed and never
    invoked. *)
Theorem record_classification (ts : list task) (q q' : state) (i : nat)
    (fn : task) (r : result) :
  idle q -> reachable (run ts q) q' -> ts !! i = Some fn ->
  results q' !! i = Some (Filled r) ->
  (exists v, r = Success v /\ (1 <= invocations q' i)%nat /\
     fn (pred (invocations q' i)) = Resolve v /\
     all_rejected fn (pred (invocations q' i))) \/
  (exists err, r = Captured (to_Error err) /\
     Z.of_nat (invocations q' i) = retryAttempts q + 1 /\
     (1 <= invocations q' i)%nat /\
     fn (pred (invocations q' i)) = Reject err /\
     all_rejected fn (invocations q' i)) \/
  (r = Captured (VError "null") /\ invocations q' i = 0%nat /\
     retryAttempts q < 0 /\ (i < nextTaskIndex q')%nat) \/
  (r = Captured (VError "Task cancelled") /\ aborted q' = true /\
     (1 <= invocations q' i)%nat /\
     Z.of_nat (invocations q' i) <= retryAttempts q /\
     all_rejected fn (invocations q' i)) \/
  (r = Captured (VError "Task cancelled via cancelAll()") /\
     invocations q' i = 0%nat /\ (nextTaskIndex q' <= i)%nat /\
     aborted q' = true).
Proof.
  intros Hidle Hreach Hfn Hr.
  destruct (index_status ts q q' i fn Hidle Hreach Hfn)
    as [(Hge & Hz & Hr' & Hab)|[(c & _ & _ & _ & Hnull & _)
       |(o & b & _ & Hlt & Hr' & Hb & Hrch)]].
  - do 4 right. destruct (resolveQueue q') as [| |rs] eqn:HP; try congruence.
    unfold cancelErr in Hr'.
    split_and!; [congruence|assumption|assumption|eauto].
  - congruence.
  - apply reach_shape in Hrch. rewrite Hr' in Hr. injection Hr as <-.
    destruct o as [[v|e]|err]; simpl in Hrch.
    + left. destruct Hrch as (? & ? & ? & ?). eauto 10.
    + destruct Hrch as [(Hz & HR & ->)|(? & ? & ? & err & ? & ->)].
      * do 2 right. left. auto.
      * right. left. exists err. auto.
    + do 3 right. left. destruct Hrch as (-> & -> & ? & ? & ?).
      simpl. auto.
Qed.

Lemma record_classification_witness :
  (exists v, Captured (VError "e2") = Success v /\
     (1 <= invocations Examples.mixed_done 1)%nat /\
     Examples.failing "e2" (pred (invocations Examples.mixed_done 1))
       = Resolve v /\
     all_rejected (Examples.failing "e2")
       (pred (invocations Examples.mixed_done 1))) \/
  (exists err, Captured (VError "e2") = Captured (to_Error err) /\
     Z.of_nat (invocations Examples.mixed_done 1)
       = retryAttempts (fresh 2 2) + 1 /\
     (1 <= invocations Examples.mixed_done 1)%nat /\
     Examples.failing "e2" (pred (invocations Examples.mixed_done 1))
       = Reject err /\
     all_rejected (Examples.failing "e2")
       (invocations Examples.mixed_done 1)) \/
  (Captured (VError "e2") = Captured (VError "null") /\
     invocations Examples.mixed_done 1 = 0%nat /\
     retryAttempts (fresh 2 2) < 0 /\
     (1 < nextTaskIndex Examples.mixed_done)%nat) \/
  (Captured (VError "e2") = Captured (VError "Task cancelled") /\
     aborted Examples.mixed_done = true /\
     (1 <= invocations Examples.mixed_done 1)%nat /\
     Z.of_nat (invocations Examples.mixed_done 1)
     <= retryAttempts (fresh 2 2) /\
     all_rejected (Examples.failing "e2")
       (invocations Examples.mixed_done 1)) \/
  (Captured (VError "e2")
   = Captured (VError "Task cancelled via cancelAll()") /\
     invocations Examples.mixed_done 1 = 0%nat /\
     (nextTaskIndex Examples.mixed_done <= 1)%nat /\
     aborted Examples.mixed_done = true).
Proof.
  apply (record_classification Examples.mixed (fresh 2 2) Examples.mixed_done
           1 (Examples.failing "e2") (Captured (VError "e2"))).
  - reflexivity.
  - exists Examples.mixed_events. vm_compute. reflexivity.
  - reflexivity.
  - vm_compute. reflexivity.
Defined.

(** X4: the [error] of every captured record is an Error object, so
    reading [error.message] of a captured record never fails. *)
Theorem captured_error_is_Error (ts : list task) (q q' : state) (i : nat)
    (e : value) :
  idle q -> reachable (run ts q) q' ->
  results q' !! i = Some (Filled (Captured e)) ->
  instanceof_Error e = true /\ exists m, message e = VString m.
Proof.
  intros Hidle Hreach Hr.
  destruct (written_captured_Error ts q q' i e Hidle Hreach Hr) as [m ->].
  split; [reflexivity|]. by exists m.
Qed.

Lemma captured_error_is_Error_witness :
  instanceof_Error (VError "e2") = true /\
  exists m, message (VError "e2") = VString m.
Proof.
  apply (captured_error_is_Error Examples.mixed (fresh 2 2)
           Examples.mixed_done 1).
  - reflexivity.
  - exists Examples.mixed_events. vm_compute. reflexivity.
  - vm_compute. reflexivity.
Defined.

(** ** What stays as it is *)

Lemma exec_app (evs1 evs2 : list event) (q : state) :
  exec (evs1 ++ evs2) q = match exec evs1 q with
                          | Some q1 => exec evs2 q1
                          | None => None
                          end.
Proof.
  revert q. induction evs1 as [|ev evs1 IH]; intros q; simpl; [done|].
  destruct (step ev q); [apply IH|done].
Qed.

Lemma reachable_trans (q0 q1 q2 : state) :
  reachable q0 q1 -> reachable q1 q2 -> reachable q0 q2.
Proof.
  intros [evs1 H1] [evs2 H2]. exists (evs1 ++ evs2).
  by rewrite exec_app, H1.
Qed.

Lemma filled_processNext (q : state) (i : nat) (r : result) :
  results q !! i = Some (Filled r) ->
  results (_processNext q) !! i = Some (Filled r).
Proof.
  intros Hr. unfold _processNext, _checkCompletion.
  destruct ((length (tasks q) <=? nextTaskIndex q)%nat || aborted q);
    [|exact Hr].
  destruct (runningCount q =? 0); [|exact Hr]. simpl.
  destruct (aborted q); [|exact Hr]. by rewrite list_lookup_fmap, Hr.
Qed.

Lemma filled_step (ts : list task) (C R : Z) (ev : event) (q q' : state)
    (i : nat) (r : result) :
  inv ts C R q -> step ev q = Some q' ->
  results q !! i = Some (Filled r) -> results q' !! i = Some (Filled r).
Proof.
  intros I Hstep Hr. destruct ev as [j|j|j|]; simpl in Hstep.
  - destruct (take j (chains q)) as [[c rest]|]; [|discriminate].
    destruct (awaiting c); try discriminate. by injection Hstep as <-.
  - destruct (take j (chains q)) as [[c rest]|]; [|discriminate].
    destruct (awaiting c) as [| ? ? [?|]|]; try discriminate.
    by injection Hstep as <-.
  - destruct (take j (chains q)) as [[c rest]|] eqn:Htake; [|discriminate].
    destruct (awaiting c) as [| |o]; try discriminate. injection Hstep as <-.
    destruct (take_inv ts C R q j c rest I Htake) as (_ & Hc & _).
    destruct (inv_chain _ _ _ _ I c Hc) as (_ & _ & Hnull & _).
    unfold finish. apply filled_processNext. simpl.
    assert (Hne : currentIndex c <> i) by congruence.
    pose proof (lookup_lt_Some _ _ _ Hnull) as Hlt.
    unfold array_set. destruct (decide _); [|lia].
    by rewrite list_lookup_insert_ne.
  - injection Hstep as <-. unfold cancelAll.
    by destruct (abortController q) as [[|]|].
Qed.

(** X5: a result slot is written once.  From the state in which
    [results[i]] holds a record, every later state of the run holds the same
    record there, whatever events follow. *)
Theorem results_written_once (ts : list task) (q q1 q2 : state) (i : nat)
    (r : result) :
  idle q -> reachable (run ts q) q1 -> reachable q1 q2 ->
  results q1 !! i = Some (Filled r) ->
  results q2 !! i = Some (Filled r).
Proof.
  intros Hidle Hreach [evs Hexec].
  pose proof (inv_reachable ts q q1 Hidle Hreach) as I. clear Hreach.
  revert q1 I Hexec. induction evs as [|ev evs IH]; intros q1 I Hexec Hr;
    simpl in Hexec.
  - by injection Hexec as <-.
  - destruct (step ev q1) as [q1'|] eqn:Hstep; [|discriminate].
    apply (IH q1'); [by eapply inv_step|assumption|].
    by eapply filled_step.
Qed.

Lemma results_written_once_witness :
  results Examples.mixed_done !! 0%nat = Some (Filled (Success (VString "1"))).
Proof.
  apply (results_written_once Examples.mixed (fresh 2 2)
           Examples.mixed_midway Examples.mixed_done).
  - reflexivity.
  - exists [TaskSettles 0; Resumes 0; TaskSettles 1]%nat.
    vm_compute. reflexivity.
  - exists [TaskSettles 2; Resumes 2; TimerFires 1; TaskSettles 1;
            TimerFires 1; TaskSettles 1; Resumes 1]%nat.
    vm_compute. reflexivity.
  - vm_compute. reflexivity.
Defined.

(** X6: a resolved run is final.  Once the promise is resolved no chain is
    left; whatever happens afterwards, a call of [cancelAll()] included,
    the promise keeps the array it was resolved with, [this.results] is
    that array and no task is invoked any more. *)
Theorem resolved_is_final (ts : list task) (q q1 q2 : state)
    (rs : list slot) :
  idle q -> reachable (run ts q) q1 -> resolveQueue q1 = Resolved rs ->
  reachable q1 q2 ->
  resolveQueue q2 = Resolved rs /\ results q2 = rs /\ chains q2 = [] /\
  calls q2 = calls q1.
Proof.
  intros Hidle Hreach HP [evs Hexec].
  pose proof (inv_reachable ts q q1 Hidle Hreach) as I.
  destruct (inv_resolved _ _ _ _ I rs HP) as (-> & Hnil & _).
  destruct (idle_exec evs q1 q2 Hnil Hexec) as (? & ? & ? & ? & _).
  split_and!; congruence.
Qed.

Lemma resolved_is_final_witness :
  resolveQueue (cancelAll Examples.mixed_done)
  = Resolved [Filled (Success (VString "1")); Filled (Captured (VError "e2"));
              Filled (Success (VString "3"))] /\
  results (cancelAll Examples.mixed_done)
  = [Filled (Success (VString "1")); Filled (Captured (VError "e2"));
     Filled (Success (VString "3"))] /\
  chains (cancelAll Examples.mixed_done) = [] /\
  calls (cancelAll Examples.mixed_done) = calls Examples.mixed_done.
Proof.
  apply (resolved_is_final Examples.mixed (fresh 2 2) Examples.mixed_done).
  - reflexivity.
  - exists Examples.mixed_events. vm_compute. reflexivity.
  - vm_compute. reflexivity.
  - exists [CancelAll]. vm_compute. reflexivity.
Defined.

(** ** Cancellation *)

Lemma aborted_processNext (q : state) :
  aborted q = true ->
  aborted (_processNext q) = true /\
  nextTaskIndex (_processNext q) = nextTaskIndex q /\
  chains (_processNext q) = chains q.
Proof.
  intros Hab. unfold _processNext, _checkCompletion.
  rewrite Hab, orb_true_r. by destruct (runningCount q =? 0).
Qed.

Lemma aborted_step (ev : event) (q q' : state) :
  aborted q = true -> step ev q = Some q' ->
  aborted q' = true /\ nextTaskIndex q' = nextTaskIndex q.
Proof.
  intros Hab Hstep. destruct ev as [j|j|j|]; simpl in Hstep.
  - destruct (take j (chains q)) as [[c rest]|]; [|discriminate].
    destruct (awaiting c); try discriminate. by injection Hstep as <-.
  - destruct (take j (chains q)) as [[c rest]|]; [|discriminate].
    destruct (awaiting c) as [| ? ? [?|]|]; try discriminate.
    by injection Hstep as <-.
  - destruct (take j (chains q)) as [[c rest]|]; [|discriminate].
    destruct (awaiting c) as [| |o]; try discriminate. injection Hstep as <-.
    unfold finish.
    match goal with
    | |- context [_processNext ?m] =>
        destruct (aborted_processNext m Hab) as (? & ? & _)
    end.
    auto.
  - injection Hstep as <-. unfold cancelAll.
    assert (E : abortController q = Some true).
    { unfold aborted in Hab. by destruct (abortController q) as [[|]|]. }
    rewrite E. auto.
Qed.

(** X7: cancellation is one-way and stops the claims.  Once the signal is
    aborted it stays aborted for the rest of the run, the cursor does not
    move any more, and a task that was not claimed by then is never
    invoked. *)
Theorem cancel_stops_claims (ts : list task) (q q1 q2 : state) :
  idle q -> reachable (run ts q) q1 -> aborted q1 = true ->
  reachable q1 q2 ->
  aborted q2 = true /\ nextTaskIndex q2 = nextTaskIndex q1 /\
  forall i, (nextTaskIndex q1 <= i)%nat -> invocations q2 i = 0%nat.
Proof.
  intros Hidle Hreach Hab Hreach2.
  pose proof (inv_reachable ts q q2 Hidle
                (reachable_trans _ _ _ Hreach Hreach2)) as I.
  assert (H : aborted q2 = true /\ nextTaskIndex q2 = nextTaskIndex q1).
  { destruct Hreach2 as [evs Hexec]. clear Hreach I.
    revert q1 Hab Hexec. induction evs as [|ev evs IH]; intros q1 Hab Hexec;
      simpl in Hexec.
    - by injection Hexec as <-.
    - destruct (step ev q1) as [q1'|] eqn:Hstep; [|discriminate].
      destruct (aborted_step ev q1 q1' Hab Hstep) as [Hab' Hn].
      destruct (IH q1' Hab' Hexec) as [? ?]. split; congruence. }
  destruct H as [Hab2 Hn]. split_and!; [assumption..|].
  intros i Hi. destruct (decide (i < length ts)%nat) as [Hlt|Hge].
  - by destruct (inv_unclaimed _ _ _ _ I i ltac:(lia)).
  - unfold invocations. rewrite lookup_ge_None_2; [reflexivity|].
    rewrite (inv_calls _ _ _ _ I). lia.
Qed.

Lemma cancel_stops_claims_witness :
  aborted Examples.both_cancelled = true /\
  nextTaskIndex Examples.both_cancelled
  = nextTaskIndex
      (cancelAll (run [Examples.failing "x"; Examples.ok "b"] (fresh 1 1))) /\
  forall i,
    (nextTaskIndex
       (cancelAll (run [Examples.failing "x"; Examples.ok "b"] (fresh 1 1)))
     <= i)%nat ->
    invocations Examples.both_cancelled i = 0%nat.
Proof.
  apply (cancel_stops_claims [Examples.failing "x"; Examples.ok "b"]
           (fresh 1 1)).
  - reflexivity.
  - exists [CancelAll]. vm_compute. reflexivity.
  - vm_compute. reflexivity.
  - exists [TaskSettles 0; Resumes 0]%nat. vm_compute. reflexivity.
Defined.

Section PendingSuccess.
Variable ts : list task.
Variable C R : Z.
Variable idx : nat.
Variable fn : task.
Variable attempt : Z.
Variable theError : value.
Variable v : value.

Local Abbreviation success_on_its_way :=
  (Queue.success_on_its_way idx fn attempt theError v).

Lemma cancelAll_keeps (q : state) (c : chain) :
  on_abort (awaiting c) = awaiting c -> c ∈ chains q ->
  c ∈ chains (cancelAll q).
Proof.
  intros Hc Hin. unfold cancelAll.
  destruct (abortController q) as [[|]|]; try assumption. simpl.
  apply list_elem_of_fmap. exists c. split; [|assumption].
  destruct c as [ci cf cs]. simpl in Hc. unfold chain_on_abort. simpl.
  by rewrite Hc.
Qed.

Lemma success_on_its_way_step (ev : event) (q q' : state) :
  inv ts C R q -> step ev q = Some q' ->
  success_on_its_way q -> success_on_its_way q'.
Proof.
  intros I Hstep H.
  destruct H as [H|[H|H]];
    [| |right; right; by eapply filled_step].
  - (* the attempt is pending *)
    destruct ev as [j|j|j|]; simpl in Hstep.
    + destruct (take j (chains q)) as [[c0 rest]|] eqn:Htake; [|discriminate].
      destruct (awaiting c0) as [a0 e0 p0| |] eqn:Hs; try discriminate.
      injection Hstep as <-. destruct (take_spec _ _ _ _ Htake) as [P _].
      rewrite P in H. apply elem_of_cons in H as [<-|H].
      * simpl in Hs. injection Hs as <- <- <-. right. left. simpl. left.
      * left. simpl. by right.
    + destruct (take j (chains q)) as [[c0 rest]|] eqn:Htake; [|discriminate].
      destruct (awaiting c0) as [|a0 e0 [w|]|] eqn:Hs; try discriminate.
      injection Hstep as <-. destruct (take_spec _ _ _ _ Htake) as [P _].
      rewrite P in H. apply elem_of_cons in H as [<-|H]; [discriminate|].
      left. simpl. by right.
    + destruct (take j (chains q)) as [[c0 rest]|] eqn:Htake; [|discriminate].
      destruct (awaiting c0) as [| |o] eqn:Hs; try discriminate.
      injection Hstep as <-. destruct (take_spec _ _ _ _ Htake) as [P _].
      rewrite P in H. apply elem_of_cons in H as [<-|H]; [discriminate|].
      left. unfold finish. by apply chains_processNext.
    + injection Hstep as <-. left. by apply cancelAll_keeps.
  - (* the call has completed *)
    destruct ev as [j|j|j|]; simpl in Hstep.
    + destruct (take j (chains q)) as [[c0 rest]|] eqn:Htake; [|discriminate].
      destruct (awaiting c0) as [a0 e0 p0| |] eqn:Hs; try discriminate.
      injection Hstep as <-. destruct (take_spec _ _ _ _ Htake) as [P _].
      rewrite P in H. apply elem_of_cons in H as [<-|H]; [discriminate|].
      right. left. simpl. by right.
    + destruct (take j (chains q)) as [[c0 rest]|] eqn:Htake; [|discriminate].
      destruct (awaiting c0) as [|a0 e0 [w|]|] eqn:Hs; try discriminate.
      injection Hstep as <-. destruct (take_spec _ _ _ _ Htake) as [P _].
      rewrite P in H. apply elem_of_cons in H as [<-|H]; [discriminate|].
      right. left. simpl. by right.
    + destruct (take j (chains q)) as [[c0 rest]|] eqn:Htake; [|discriminate].
      destruct (awaiting c0) as [| |o] eqn:Hs; try discriminate.
      injection Hstep as <-. destruct (take_spec _ _ _ _ Htake) as [P _].
      pose proof H as Hin.
      rewrite P in H. apply elem_of_cons in H as [<-|H].
      * simpl in Hs. injection Hs as <-. right. right.
        destruct (inv_chain _ _ _ _ I _ Hin) as (_ & _ & Hnull & _).
        simpl in Hnull. pose proof (lookup_lt_Some _ _ _ Hnull) as Hlt.
        unfold finish. apply filled_processNext. simpl.
        unfold array_set. destruct (decide _); [|lia].
        by apply list_lookup_insert_eq.
      * right. left. unfold finish. by apply chains_processNext.
    + injection Hstep as <-. right. left. by apply cancelAll_keeps.
Qed.

Lemma success_on_its_way_exec (evs : list event) (q q' : state) :
  inv ts C R q -> exec evs q = Some q' ->
  success_on_its_way q -> success_on_its_way q'.
Proof.
  revert q. induction evs as [|ev evs IH]; intros q I Hexec H;
    simpl in Hexec.
  - by injection Hexec as <-.
  - destruct (step ev q) as [q1|] eqn:Hstep; [|discriminate].
    apply (IH q1); [by eapply inv_step|assumption|].
    by eapply success_on_its_way_step.
Qed.

End PendingSuccess.

(** X8: cancellation does not touch an attempt that is running.  When the
    pending attempt of a claimed task is going to resolve with [v], then in
    every later state, cancelled or not, the chain still awaits that
    attempt, or has completed with the success, or the slot of the task
    holds the success record; the slot never holds anything else. *)
Theorem running_attempt_survives_cancel (ts : list task) (q q1 q2 : state)
    (c : chain) (attempt : Z) (theError : value) (v : value) :
  idle q -> reachable (run ts q) q1 -> c ∈ chains q1 ->
  awaiting c = AwaitTask attempt theError (Resolve v) ->
  reachable q1 q2 ->
  success_on_its_way (currentIndex c) (taskFn c) attempt theError v q2 /\
  forall r, results q2 !! currentIndex c = Some (Filled r) -> r = Success v.
Proof.
  intros Hidle Hreach Hc Hs Hreach2.
  pose proof (inv_reachable ts q q1 Hidle Hreach) as I1.
  pose proof (inv_reachable ts q q2 Hidle
                (reachable_trans _ _ _ Hreach Hreach2)) as I2.
  destruct Hreach2 as [evs Hexec].
  assert (H : success_on_its_way (currentIndex c) (taskFn c) attempt
                theError v q2).
  { eapply success_on_its_way_exec; [exact I1|exact Hexec|].
    left. destruct c as [ci cf cs]. simpl in *. by subst cs. }
  split; [assumption|]. intros r Hr.
  destruct H as [H|[H|H]].
  - destruct (inv_chain _ _ _ _ I2 _ H) as (_ & _ & Hnull & _).
    simpl in Hnull. congruence.
  - destruct (inv_chain _ _ _ _ I2 _ H) as (_ & _ & Hnull & _).
    simpl in Hnull. congruence.
  - congruence.
Qed.

Lemma running_attempt_survives_cancel_witness :
  success_on_its_way 0 (Examples.ok "a") 0 VNull (VString "a")
    Examples.cancelled_while_running /\
  forall r,
    results Examples.cancelled_while_running !! 0%nat = Some (Filled r) ->
    r = Success (VString "a").
Proof.
  apply (running_attempt_survives_cancel
           [Examples.ok "a"; Examples.ok "b"; Examples.ok "c"] (fresh 1 3)
           (run [Examples.ok "a"; Examples.ok "b"; Examples.ok "c"] (fresh 1 3))
           Examples.cancelled_while_running
           (Chain 0 (Examples.ok "a")
              (AwaitTask 0 VNull (Resolve (VString "a"))))
           0 VNull (VString "a")).
  - reflexivity.
  - exists []. reflexivity.
  - vm_compute. left.
  - reflexivity.
  - exists [CancelAll; TaskSettles 0; Resumes 0]%nat. vm_compute. reflexivity.
Defined.

(** ** Completion *)

Section Live.
Variable ts : list task.
Variable C R : Z.

Lemma live_step (ev : event) (q q' : state) :
  inv ts C R q -> live q -> step ev q = Some q' -> live q'.
Proof.
  intros I L Hstep. destruct ev as [j|j|j|]; simpl in Hstep.
  - destruct (take j (chains q)) as [[c rest]|]; [|discriminate].
    destruct (awaiting c); try discriminate. injection Hstep as <-.
    intros _. discriminate.
  - destruct (take j (chains q)) as [[c rest]|]; [|discriminate].
    destruct (awaiting c) as [| ? ? [?|]|]; try discriminate.
    injection Hstep as <-. intros _. discriminate.
  - destruct (take j (chains q)) as [[c rest]|] eqn:Htake; [|discriminate].
    destruct (awaiting c) as [| |o]; try discriminate. injection Hstep as <-.
    destruct (take_inv ts C R q j c rest I Htake)
      as (_ & _ & _ & _ & _ & Hlen & _ & HP).
    pose proof (inv_running _ _ _ _ I) as Hrun.
    unfold finish, _processNext, _checkCompletion, live. simpl.
    match goal with |- context [if ?b then _ else _] => destruct b end.
    + destruct (runningCount q - 1 =? 0) eqn:E; simpl.
      * rewrite HP. discriminate.
      * intros _ ->. apply Z.eqb_neq in E. simpl in Hlen. lia.
    + simpl. intros _ E. by apply app_eq_nil in E as [_ ?].
  - injection Hstep as <-. unfold cancelAll, live in *.
    destruct (abortController q) as [[|]|]; try assumption. simpl.
    intros HP E. apply fmap_nil_inv in E. exact (L HP E).
Qed.

Lemma live_run (q : state) :
  maxAtSameTime q = C -> retryAttempts q = R -> idle q -> 1 <= C ->
  live (run ts q).
Proof.
  intros HC HR Hidle H1 HP.
  destruct (inv_run ts C R q HC HR Hidle) as [_ Hlen].
  destruct (decide (ts = [])) as [Hnil|Hne].
  - exfalso. revert HP. unfold run. rewrite Hnil. discriminate.
  - intros E. rewrite E in Hlen. unfold batch in Hlen.
    assert (length ts <> 0%nat) by (by destruct ts). simpl in Hlen. lia.
Qed.

Lemma live_exec (evs : list event) (q q' : state) :
  inv ts C R q -> live q -> exec evs q = Some q' -> live q'.
Proof.
  revert q. induction evs as [|ev evs IH]; intros q I L Hexec; simpl in Hexec.
  - by injection Hexec as <-.
  - destruct (step ev q) as [q1|] eqn:Hstep; [|discriminate].
    apply (IH q1); [by eapply inv_step|by eapply live_step|assumption].
Qed.

End Live.

Lemma live_reachable (ts : list task) (q q' : state) :
  idle q -> 1 <= maxAtSameTime q -> reachable (run ts q) q' -> live q'.
Proof.
  intros Hidle H1 [evs Hexec].
  apply (live_exec ts (maxAtSameTime q) (retryAttempts q) evs (run ts q));
    [|by apply (live_run ts (maxAtSameTime q) (retryAttempts q))
     |exact Hexec].
  by apply inv_run.
Qed.

(** X9: the promise of a run is resolved exactly when no chain is in
    flight, that is exactly when [runningCount] is 0: not before the last
    running task has stored its record, and as soon as it has. *)
Theorem resolved_iff_no_chain (ts : list task) (q q' : state) :
  idle q -> 1 <= maxAtSameTime q -> reachable (run ts q) q' ->
  ((exists rs, resolveQueue q' = Resolved rs) <-> chains q' = []) /\
  (chains q' = [] <-> runningCount q' = 0) /\
  ((exists rs, resolveQueue q' = Resolved rs) \/ resolveQueue q' = Pending).
Proof.
  intros Hidle H1 Hreach.
  pose proof (inv_reachable ts q q' Hidle Hreach) as I.
  pose proof (live_reachable ts q q' Hidle H1 Hreach) as L.
  pose proof (inv_running _ _ _ _ I) as Hrun.
  split_and!.
  - split.
    + intros [rs HP]. by destruct (inv_resolved _ _ _ _ I rs HP) as (_ & ? & _).
    + intros Hnil. destruct (resolveQueue q') as [| |rs] eqn:HP.
      * by destruct (inv_promise _ _ _ _ I).
      * by destruct (L HP).
      * eauto.
  - split.
    + intros Hnil. by rewrite Hrun, Hnil.
    + intros H0. destruct (chains q'); [done|]. simpl in Hrun. lia.
  - destruct (resolveQueue q') as [| |rs] eqn:HP; eauto.
    by destruct (inv_promise _ _ _ _ I).
Qed.

Lemma resolved_iff_no_chain_witness :
  ((exists rs, resolveQueue Examples.mixed_midway = Resolved rs)
   <-> chains Examples.mixed_midway = []) /\
  (chains Examples.mixed_midway = []
   <-> runningCount Examples.mixed_midway = 0) /\
  ((exists rs, resolveQueue Examples.mixed_midway = Resolved rs) \/
   resolveQueue Examples.mixed_midway = Pending).
Proof.
  apply (resolved_iff_no_chain Examples.mixed (fresh 2 2)).
  - reflexivity.
  - simpl. lia.
  - exists [TaskSettles 0; Resumes 0; TaskSettles 1]%nat.
    vm_compute. reflexivity.
Defined.

Lemma counted_processNext (q : state) : counted q -> counted (_processNext q).
Proof.
  unfold counted, _processNext, _checkCompletion.
  destruct ((length (tasks q) <=? nextTaskIndex q)%nat || aborted q).
  - by destruct (runningCount q =? 0).
  - simpl. lia.
Qed.

Lemma counted_step (ev : event) (q q' : state) :
  counted q -> step ev q = Some q' -> counted q'.
Proof.
  intros H Hstep. destruct ev as [j|j|j|]; simpl in Hstep.
  - destruct (take j (chains q)) as [[c rest]|]; [|discriminate].
    destruct (awaiting c); try discriminate. by injection Hstep as <-.
  - destruct (take j (chains q)) as [[c rest]|]; [|discriminate].
    destruct (awaiting c) as [| ? ? [?|]|]; try discriminate.
    by injection Hstep as <-.
  - destruct (take j (chains q)) as [[c rest]|]; [|discriminate].
    destruct (awaiting c) as [| |o]; try discriminate. injection Hstep as <-.
    unfold finish. apply counted_processNext. unfold counted in *. simpl. lia.
  - injection Hstep as <-. unfold cancelAll.
    by destruct (abortController q) as [[|]|].
Qed.

Lemma counted_run (ts : list task) (q : state) : counted (run ts q).
Proof.
  unfold run. destruct (length ts =? 0)%nat; [reflexivity|].
  generalize (Z.to_nat (Z.min (maxAtSameTime (reset ts q))
                          (Z.of_nat (length ts)))).
  intros n. induction n as [|n IH]; simpl.
  - reflexivity.
  - by apply counted_processNext.
Qed.

(** X10: the three counters agree.  In every state of a run
    [finishedCount + runningCount] is [nextTaskIndex]; when the run has
    resolved, [finishedCount] is the number of tasks that were claimed,
    which is all of them unless the run was cancelled. *)
Theorem counters_agree (ts : list task) (q q' : state) :
  idle q -> reachable (run ts q) q' ->
  finishedCount q' + runningCount q' = Z.of_nat (nextTaskIndex q') /\
  (forall rs, resolveQueue q' = Resolved rs ->
     finishedCount q' = Z.of_nat (nextTaskIndex q') /\
     (aborted q' = false -> finishedCount q' = Z.of_nat (length ts))).
Proof.
  intros Hidle Hreach.
  pose proof (inv_reachable ts q q' Hidle Hreach) as I.
  assert (Hc : counted q').
  { destruct Hreach as [evs Hexec]. pose proof (counted_run ts q) as H0.
    revert H0 Hexec. generalize (run ts q). clear I.
    induction evs as [|ev evs IH]; intros q0 H0 Hexec; simpl in Hexec.
    - by injection Hexec as <-.
    - destruct (step ev q0) as [q1|] eqn:Hstep; [|discriminate].
      apply (IH q1); [by eapply counted_step|assumption]. }
  split; [exact Hc|]. intros rs HP.
  destruct (inv_resolved _ _ _ _ I rs HP) as (_ & Hnil & Hab).
  pose proof (inv_running _ _ _ _ I) as Hrun. rewrite Hnil in Hrun.
  unfold counted in Hc. simpl in Hrun. split; [lia|].
  intros Hno. pose proof (inv_next _ _ _ _ I) as Hn.
  destruct (decide (nextTaskIndex q' < length ts)%nat) as [Hlt|Hge].
  - rewrite (Hab Hlt) in Hno. discriminate.
  - lia.
Qed.

Lemma counters_agree_witness :
  finishedCount Examples.both_cancelled + runningCount Examples.both_cancelled
  = Z.of_nat (nextTaskIndex Examples.both_cancelled) /\
  (forall rs, resolveQueue Examples.both_cancelled = Resolved rs ->
     finishedCount Examples.both_cancelled
     = Z.of_nat (nextTaskIndex Examples.both_cancelled) /\
     (aborted Examples.both_cancelled = false ->
      finishedCount Examples.both_cancelled
      = Z.of_nat (length [Examples.failing "x"; Examples.ok "b"]))).
Proof.
  apply (counters_agree [Examples.failing "x"; Examples.ok "b"] (fresh 1 1)).
  - reflexivity.
  - exists Examples.cancel_events. vm_compute. reflexivity.
Defined.


(** ** Progress *)

(** An event other than a cancellation keeps the signal. *)
Lemma signal_processNext (q : state) :
  abortController (_processNext q) = abortController q.
Proof.
  unfold _processNext, _checkCompletion.
  destruct ((length (tasks q) <=? nextTaskIndex q)%nat || aborted q);
    [|reflexivity].
  by destruct (runningCount q =? 0).
Qed.

Lemma signal_step (ev : event) (q q' : state) :
  ev <> CancelAll -> step ev q = Some q' ->
  abortController q' = abortController q.
Proof.
  intros Hev Hstep. destruct ev as [j|j|j|]; simpl in Hstep; [| | |done].
  - destruct (take j (chains q)) as [[c rest]|]; [|discriminate].
    destruct (awaiting c); try discriminate. by injection Hstep as <-.
  - destruct (take j (chains q)) as [[c rest]|]; [|discriminate].
    destruct (awaiting c) as [| ? ? [?|]|]; try discriminate.
    by injection Hstep as <-.
  - destruct (take j (chains q)) as [[c rest]|]; [|discriminate].
    destruct (awaiting c) as [| |o]; try discriminate. injection Hstep as <-.
    unfold finish. by rewrite signal_processNext.
Qed.

(** A chain whose timer is not cleared can take its next step. *)
Lemma chain_can_step (ts : list task) (C R : Z) (q : state) (c : chain) :
  inv ts C R q -> c ∈ chains q -> ~ timer_cleared c ->
  exists ev q', ev <> CancelAll /\ step ev q = Some q'.
Proof.
  intros I Hc Hlive.
  destruct (take_complete c (chains q) Hc (inv_nodup _ _ _ _ I))
    as [rest Htake].
  destruct (awaiting c) as [a e p|a e [w|]|o] eqn:Hs.
  - exists (TaskSettles (currentIndex c)). simpl. rewrite Htake, Hs. eauto.
  - exists (TimerFires (currentIndex c)). simpl. rewrite Htake, Hs. eauto.
  - destruct Hlive. by exists a, e.
  - exists (Resumes (currentIndex c)). simpl. rewrite Htake, Hs. eauto.
Qed.

(** X11: without cancellation a run never gets stuck.  As long as the
    promise is pending and [cancelAll()] has not been called, some chain can
    take its next step (its task settles, its timer fires or it is
    resumed), and the step leaves the signal as it is. *)
Theorem no_deadlock_without_cancellation (ts : list task) (q q' : state) :
  idle q -> 1 <= maxAtSameTime q -> reachable (run ts q) q' ->
  aborted q' = false -> resolveQueue q' = Pending ->
  exists ev q'', ev <> CancelAll /\ step ev q' = Some q'' /\
                 aborted q'' = false.
Proof.
  intros Hidle H1 Hreach Hab HP.
  pose proof (inv_reachable ts q q' Hidle Hreach) as I.
  pose proof (live_reachable ts q q' Hidle H1 Hreach HP) as L.
  destruct (chains q') as [|c l] eqn:Hch; [done|].
  assert (Hc : c ∈ chains q') by (rewrite Hch; left).
  destruct (chain_can_step ts _ _ q' c I Hc) as (ev & q'' & Hev & Hstep).
  - intros (a & e & Hs).
    destruct (inv_chain _ _ _ _ I c Hc) as (_ & _ & _ & Hrch).
    rewrite Hs in Hrch.
    pose proof (cleared_timer_reach _ _ _ _ _ Hrch a e eq_refl). congruence.
  - exists ev, q''. split_and!; [assumption..|].
    unfold aborted in *. by rewrite (signal_step ev q' q'' Hev Hstep).
Qed.

Lemma no_deadlock_without_cancellation_witness :
  exists ev q'', ev <> CancelAll /\
    step ev Examples.mixed_midway = Some q'' /\ aborted q'' = false.
Proof.
  apply (no_deadlock_without_cancellation Examples.mixed (fresh 2 2)).
  - reflexivity.
  - simpl. lia.
  - exists [TaskSettles 0; Resumes 0; TaskSettles 1]%nat.
    vm_compute. reflexivity.
  - vm_compute. reflexivity.
  - vm_compute. reflexivity.
Defined.

Section CancelOutsideBackoff.
Variable ts : list task.
Variable C R : Z.

Lemma loop_head_aborted (fn : task) (n : nat) (a : Z) (e : value) :
  exists o, (loop_head R true fn n a e).1 = Settled o.
Proof. unfold loop_head. destruct (a <=? R); simpl; eauto. Qed.

Lemma none_in_backoff_step (ev : event) (q q' : state) :
  inv ts C R q -> aborted q = true -> none_in_backoff q ->
  step ev q = Some q' -> none_in_backoff q'.
Proof.
  intros I Hab K Hstep. pose proof (inv_retry _ _ _ _ I) as HR.
  destruct ev as [j|j|j|]; simpl in Hstep.
  - destruct (take j (chains q)) as [[c rest]|] eqn:Htake; [|discriminate].
    destruct (awaiting c) as [a e p| |] eqn:Hs; try discriminate.
    injection Hstep as <-. destruct (take_spec _ _ _ _ Htake) as [P _].
    intros c' Hc'. simpl in Hc'. apply elem_of_cons in Hc' as [->|Hc'].
    + simpl. rewrite Hab, HR. unfold after_attempt.
      destruct p as [v|err]; [discriminate|].
      rewrite andb_false_r.
      destruct (loop_head_aborted (taskFn c) (invocations q j) (a + 1) err)
        as [o ->].
      discriminate.
    + apply K. rewrite P. by right.
  - destruct (take j (chains q)) as [[c rest]|] eqn:Htake; [|discriminate].
    destruct (awaiting c) as [|a e [w|]|] eqn:Hs; try discriminate.
    destruct (take_spec _ _ _ _ Htake) as [P _].
    destruct (K c ltac:(rewrite P; left) a e (Some w) Hs).
  - destruct (take j (chains q)) as [[c rest]|] eqn:Htake; [|discriminate].
    destruct (awaiting c) as [| |o] eqn:Hs; try discriminate.
    injection Hstep as <-. destruct (take_spec _ _ _ _ Htake) as [P _].
    unfold finish.
    match goal with
    | |- none_in_backoff (_processNext ?m) =>
        destruct (aborted_processNext m Hab) as (_ & _ & Hch)
    end.
    intros c' Hc'. rewrite Hch in Hc'. simpl in Hc'.
    apply K. rewrite P. by right.
  - injection Hstep as <-. unfold cancelAll.
    assert (E : abortController q = Some true).
    { unfold aborted in Hab. by destruct (abortController q) as [[|]|]. }
    by rewrite E.
Qed.

Lemma none_in_backoff_cancelAll (q : state) :
  inv ts C R q -> none_in_backoff q ->
  aborted (cancelAll q) = true /\ none_in_backoff (cancelAll q).
Proof.
  intros I K. destruct (inv_ctrl _ _ _ _ I) as [b Hb].
  unfold cancelAll, aborted. rewrite Hb. destruct b; simpl.
  - by rewrite Hb.
  - split; [reflexivity|]. intros c Hc a e t. simpl in Hc.
    apply list_elem_of_fmap in Hc as (c0 & -> & Hc0). simpl.
    pose proof (K c0 Hc0) as Hk.
    destruct (awaiting c0) as [| a0 e0 t0|]; simpl; try discriminate.
    destruct (Hk a0 e0 t0 eq_refl).
Qed.

Lemma none_in_backoff_exec (evs : list event) (q q' : state) :
  inv ts C R q -> aborted q = true -> none_in_backoff q ->
  exec evs q = Some q' -> aborted q' = true /\ none_in_backoff q'.
Proof.
  revert q. induction evs as [|ev evs IH]; intros q I Hab K Hexec;
    simpl in Hexec.
  - by injection Hexec as <-.
  - destruct (step ev q) as [q1|] eqn:Hstep; [|discriminate].
    apply (IH q1); [by eapply inv_step| | |assumption].
    + by destruct (aborted_step ev q q1 Hab Hstep).
    + by eapply none_in_backoff_step.
Qed.

End CancelOutsideBackoff.

(** ** Bounded work *)

Lemma cost_loop_head (R : Z) (b : bool) (fn : task) (n : nat) (a : Z)
    (e : value) :
  (cost R (loop_head R b fn n a e).1
   <= Nat.max 1 (2 * Z.to_nat (R + 1 - a)))%nat.
Proof.
  unfold loop_head. destruct (a <=? R) eqn:E; [|simpl; lia].
  apply Z.leb_le in E. destruct b; simpl; lia.
Qed.

Lemma cost_start (R : Z) (b : bool) (fn : task) (n : nat) :
  (cost R (start R b fn n).1 <= task_cost R)%nat.
Proof.
  unfold start. pose proof (cost_loop_head R b fn n 0 VNull).
  unfold task_cost. lia.
Qed.

Lemma cost_resume (R : Z) (b : bool) (fn : task) (s : suspended) (n : nat)
    (next : suspended * nat) :
  in_budget R s -> resume R b fn s n = Some next ->
  (cost R next.1 < cost R s)%nat.
Proof.
  intros B Hres. destruct s as [a e p|a e [w|]|o]; simpl in *;
    try discriminate; injection Hres as <-.
  - unfold after_attempt. destruct p as [v|err]; simpl; [lia|].
    destruct ((a <? R) && negb b); simpl; [lia|].
    pose proof (cost_loop_head R b fn n (a + 1) err). lia.
  - unfold after_backoff.
    pose proof (cost_loop_head R b fn n (a + 1) e). lia.
Qed.

Lemma cost_on_abort (R : Z) (s : suspended) : cost R (on_abort s) = cost R s.
Proof. by destruct s. Qed.

Lemma potential_processNext (q : state) :
  (potential (_processNext q) <= potential q)%nat.
Proof.
  unfold _processNext, _checkCompletion.
  destruct ((length (tasks q) <=? nextTaskIndex q)%nat || aborted q) eqn:E.
  - by destruct (runningCount q =? 0).
  - apply orb_false_iff in E as [E _]. apply Nat.leb_gt in E.
    unfold potential. simpl. rewrite sum_list_with_app. simpl.
    pose proof (cost_start (retryAttempts q) (aborted q)
                  (default not_a_function (tasks q !! nextTaskIndex q))
                  (invocations q (nextTaskIndex q))).
    nia.
Qed.

Lemma potential_cancelAll (q : state) : potential (cancelAll q) = potential q.
Proof.
  unfold cancelAll. destruct (abortController q) as [[|]|]; try reflexivity.
  unfold potential. simpl. f_equal.
  induction (chains q) as [|c l IH]; [reflexivity|].
  rewrite fmap_cons. cbn [sum_list_with]. rewrite IH.
  unfold chain_on_abort at 1. cbn [awaiting]. by rewrite cost_on_abort.
Qed.

(** Every step of a chain uses up potential. *)
Lemma potential_step (ts : list task) (C R : Z) (ev : event) (q q' : state) :
  inv ts C R q -> ev <> CancelAll -> step ev q = Some q' ->
  (potential q' < potential q)%nat.
Proof.
  intros I Hev Hstep. pose proof (inv_retry _ _ _ _ I) as HR.
  assert (Hadv : forall j c rest next,
            take j (chains q) = Some (c, rest) ->
            resume (retryAttempts q) (aborted q) (taskFn c) (awaiting c)
              (invocations q j) = Some next ->
            (potential (advance q c rest next) < potential q)%nat).
  { intros j c rest next Htake Hres.
    destruct (take_inv ts C R q j c rest I Htake) as (_ & Hc & _).
    destruct (take_spec _ _ _ _ Htake) as [P _].
    destruct (inv_chain _ _ _ _ I c Hc) as (_ & _ & _ & Hrch).
    apply in_budget_reach in Hrch. rewrite <- HR in Hrch.
    pose proof (cost_resume _ _ _ _ _ _ Hrch Hres).
    unfold potential. rewrite P. simpl. lia. }
  destruct ev as [j|j|j|]; simpl in Hstep; [| | |done].
  - destruct (take j (chains q)) as [[c rest]|] eqn:Htake; [|discriminate].
    destruct (awaiting c) as [a e p| |] eqn:Hs; try discriminate.
    injection Hstep as <-. apply (Hadv j); [assumption|]. by rewrite Hs.
  - destruct (take j (chains q)) as [[c rest]|] eqn:Htake; [|discriminate].
    destruct (awaiting c) as [|a e [w|]|] eqn:Hs; try discriminate.
    injection Hstep as <-. apply (Hadv j); [assumption|]. by rewrite Hs.
  - destruct (take j (chains q)) as [[c rest]|] eqn:Htake; [|discriminate].
    destruct (awaiting c) as [| |o] eqn:Hs; try discriminate.
    injection Hstep as <-. destruct (take_spec _ _ _ _ Htake) as [P _].
    unfold finish.
    match goal with
    | |- (potential (_processNext ?m) < _)%nat =>
        pose proof (potential_processNext m) as Hle;
        assert (potential m + 1 = potential q)%nat
    end.
    { unfold potential. rewrite P. simpl. rewrite Hs. simpl. lia. }
    lia.
Qed.

Lemma potential_exec (ts : list task) (C R : Z) (evs : list event)
    (q q' : state) :
  inv ts C R q -> exec evs q = Some q' ->
  (length (chain_events evs) + potential q' <= potential q)%nat.
Proof.
  revert q. induction evs as [|ev evs IH]; intros q I Hexec; simpl in Hexec.
  - injection Hexec as <-. simpl. lia.
  - destruct (step ev q) as [q1|] eqn:Hstep; [|discriminate].
    pose proof (IH q1 (inv_step _ _ _ _ _ _ I Hstep) Hexec) as Hle.
    unfold chain_events in *. rewrite filter_cons.
    destruct (decide (ev <> CancelAll)) as [Hev|Hev].
    + pose proof (potential_step _ _ _ _ _ _ I Hev Hstep). simpl. lia.
    + assert (ev = CancelAll) as ->.
      { destruct ev; try reflexivity; exfalso; apply Hev; discriminate. }
      simpl in Hstep. injection Hstep as <-.
      rewrite potential_cancelAll in Hle. lia.
Qed.

Lemma potential_run (ts : list task) (q : state) :
  idle q ->
  (potential (run ts q) <= length ts * task_cost (retryAttempts q))%nat.
Proof.
  intros Hidle. unfold idle in Hidle.
  assert (H0 : potential (reset ts q)
               = (length ts * task_cost (retryAttempts q))%nat).
  { unfold potential. simpl. rewrite Hidle. simpl. lia. }
  unfold run. destruct (length ts =? 0)%nat eqn:E.
  - apply Nat.eqb_eq in E. unfold potential. simpl.
    rewrite Hidle, E. simpl. lia.
  - rewrite <- H0.
    generalize (Z.to_nat (Z.min (maxAtSameTime (reset ts q))
                            (Z.of_nat (length ts)))).
    intros n. induction n as [|n IH]; simpl; [lia|].
    etrans; [apply potential_processNext|exact IH].
Qed.

(** X12: the work of a run is bounded.  Whatever the order of events and
    however often [cancelAll()] is called, a run takes at most
    [2 * retryAttempts + 2] chain steps per task (one settle per attempt, one
    timer per retry, one resumption), so no chain goes on for ever. *)
Theorem bounded_work (ts : list task) (q q' : state) (evs : list event) :
  idle q -> exec evs (run ts q) = Some q' ->
  (length (chain_events evs)
   <= length ts * (2 * Z.to_nat (retryAttempts q) + 2))%nat.
Proof.
  intros Hidle Hexec.
  destruct (inv_run ts _ _ q eq_refl eq_refl Hidle) as [I _].
  pose proof (potential_exec _ _ _ _ _ _ I Hexec).
  pose proof (potential_run ts q Hidle). unfold task_cost in *. lia.
Qed.

Lemma bounded_work_witness :
  (length (chain_events Examples.exhaust_events)
   <= length [Examples.failing "permanent"]
      * (2 * Z.to_nat (retryAttempts (fresh 1 3)) + 2))%nat.
Proof.
  apply (bounded_work [Examples.failing "permanent"] (fresh 1 3)
           Examples.failing_done).
  - reflexivity.
  - vm_compute. reflexivity.
Defined.

(** ** Termination without cancellation *)

Lemma pending_can_step (ts : list task) (C R : Z) (q : state) :
  inv ts C R q -> live q -> aborted q = false -> resolveQueue q = Pending ->
  exists ev q', ev <> CancelAll /\ step ev q = Some q' /\ aborted q' = false.
Proof.
  intros I L Hab HP. specialize (L HP).
  destruct (chains q) as [|c l] eqn:Hch; [done|].
  assert (Hc : c ∈ chains q) by (rewrite Hch; left).
  destruct (chain_can_step ts _ _ q c I Hc) as (ev & q' & Hev & Hstep).
  - intros (a & e & Hs).
    destruct (inv_chain _ _ _ _ I c Hc) as (_ & _ & _ & Hrch).
    rewrite Hs in Hrch.
    pose proof (cleared_timer_reach _ _ _ _ _ Hrch a e eq_refl). congruence.
  - exists ev, q'. split_and!; [assumption..|].
    unfold aborted in *. by rewrite (signal_step ev q q' Hev Hstep).
Qed.

Lemma can_resolve (ts : list task) (C R : Z) (P : state -> Prop) :
  (forall ev q q', inv ts C R q -> P q -> ev <> CancelAll ->
     step ev q = Some q' -> P q') ->
  (forall q, inv ts C R q -> P q -> live q -> resolveQueue q = Pending ->
     exists ev q', ev <> CancelAll /\ step ev q = Some q') ->
  forall (n : nat) (q : state),
    (potential q <= n)%nat -> inv ts C R q -> live q -> P q ->
    exists evs q' rs,
      chain_events evs = evs /\ (length evs <= n)%nat /\
      exec evs q = Some q' /\ resolveQueue q' = Resolved rs /\ P q'.
Proof.
  intros Hkeep Hcan n. induction n as [|n IH]; intros q Hn I L HPq.
  - destruct (resolveQueue q) as [| |rs] eqn:HP.
    + by destruct (inv_promise _ _ _ _ I).
    + destruct (Hcan q I HPq L HP) as (ev & q1 & Hev & Hstep).
      pose proof (potential_step _ _ _ _ _ _ I Hev Hstep). lia.
    + exists [], q, rs. split_and!; auto.
  - destruct (resolveQueue q) as [| |rs] eqn:HP.
    + by destruct (inv_promise _ _ _ _ I).
    + destruct (Hcan q I HPq L HP) as (ev & q1 & Hev & Hstep).
      pose proof (potential_step _ _ _ _ _ _ I Hev Hstep) as Hlt.
      destruct (IH q1) as (evs & q' & rs & Hf & Hlen & Hexec & HR & HPq');
        [lia|by eapply inv_step|by eapply live_step|by eapply Hkeep|].
      exists (ev :: evs), q', rs. split_and!; try assumption.
      * unfold chain_events in *. rewrite filter_cons.
        destruct (decide (ev <> CancelAll)); [by rewrite Hf|done].
      * simpl. lia.
      * simpl. by rewrite Hstep.
    + exists [], q, rs. split_and!; auto. simpl. lia.
Qed.

(** X13: without cancellation every run can be brought to its end.  From
    any state of a run in which [cancelAll()] has not been called, some
    sequence of chain steps, at most [2 * retryAttempts + 2] per task,
    resolves the promise, still without cancellation. *)
Theorem run_can_resolve (ts : list task) (q q' : state) :
  idle q -> 1 <= maxAtSameTime q -> reachable (run ts q) q' ->
  aborted q' = false ->
  exists evs q'' rs,
    chain_events evs = evs /\
    (length evs <= length ts * (2 * Z.to_nat (retryAttempts q) + 2))%nat /\
    exec evs q' = Some q'' /\ resolveQueue q'' = Resolved rs /\
    aborted q'' = false.
Proof.
  intros Hidle H1 Hreach Hab.
  pose proof (inv_reachable ts q q' Hidle Hreach) as I.
  pose proof (live_reachable ts q q' Hidle H1 Hreach) as L.
  destruct Hreach as [evs0 Hexec0].
  destruct (inv_run ts _ _ q eq_refl eq_refl Hidle) as [I0 _].
  pose proof (potential_exec _ _ _ _ _ _ I0 Hexec0) as Hpot.
  pose proof (potential_run ts q Hidle) as Hrun. unfold task_cost in Hrun.
  apply (can_resolve ts (maxAtSameTime q) (retryAttempts q)
           (fun s => aborted s = false)); [| |lia|assumption..].
  - intros ev s s' _ Hs Hev Hstep. unfold aborted in *.
    by rewrite (signal_step ev s s' Hev Hstep).
  - intros s Is Hs Ls HP.
    destruct (pending_can_step ts _ _ s Is Ls Hs HP)
      as (ev & s' & Hev & Hstep & _).
    eauto.
Qed.

Lemma run_can_resolve_witness :
  exists evs q'' rs,
    chain_events evs = evs /\
    (length evs
     <= length Examples.mixed * (2 * Z.to_nat (retryAttempts (fresh 2 2)) + 2))
      %nat /\
    exec evs Examples.mixed_midway = Some q'' /\
    resolveQueue q'' = Resolved rs /\ aborted q'' = false.
Proof.
  apply (run_can_resolve Examples.mixed (fresh 2 2)).
  - reflexivity.
  - simpl. lia.
  - exists [TaskSettles 0; Resumes 0; TaskSettles 1]%nat.
    vm_compute. reflexivity.
  - vm_compute. reflexivity.
Defined.

(** ** What a run without cancellation delivers *)

(** X14: without cancellation the outcome of a run does not depend on the
    order of events.  The delivered array is the list of tasks mapped through
    the direct-style call of [runTaskWithRetry], and every task has been
    invoked exactly as often as that call invokes it. *)
Theorem run_is_map_without_cancellation (ts : list task) (q q' : state)
    (rs : list slot) :
  idle q -> reachable (run ts q) q' -> resolveQueue q' = Resolved rs ->
  aborted q' = false ->
  rs = (fun fn => slot_of (runTaskWithRetry never fn (retryAttempts q)))
         <$> ts /\
  forall i fn, ts !! i = Some fn ->
    invocations q' i
    = outcome_calls (runTaskWithRetry never fn (retryAttempts q)).
Proof.
  intros Hidle Hreach HP Hab.
  pose proof (inv_reachable ts q q' Hidle Hreach) as I.
  destruct (inv_resolved _ _ _ _ I rs HP) as (-> & Hnil & Habt).
  assert (Hnext : nextTaskIndex q' = length ts).
  { pose proof (inv_next _ _ _ _ I).
    destruct (decide (nextTaskIndex q' < length ts)%nat) as [Hlt|]; [|lia].
    rewrite (Habt Hlt) in Hab. discriminate. }
  assert (Hall : forall i fn, ts !! i = Some fn ->
            exists o,
              results q' !! i = Some (Filled (record_of o)) /\
              runTaskWithRetry never fn (retryAttempts q)
              = Finished o (invocations q' i)).
  { intros i fn Hfn. pose proof (lookup_lt_Some _ _ _ Hfn) as Hi.
    assert (Hat : fn_at ts i = fn) by (unfold fn_at; by rewrite Hfn).
    destruct (inv_done _ _ _ _ I i) as [o Ho]; [lia| |].
    { unfold in_flight. rewrite Hnil. apply not_elem_of_nil. }
    destruct (inv_log _ _ _ _ I i o Ho) as (_ & _ & Hr & b & Hb & Hrch).
    exists o. split; [assumption|].
    destruct b; [specialize (Hb eq_refl); congruence|].
    rewrite Hat in Hrch. by apply reach_settled. }
  split.
  - apply list_eq. intros i. rewrite list_lookup_fmap.
    destruct (ts !! i) as [fn|] eqn:Hfn; simpl.
    + destruct (Hall i fn Hfn) as (o & Hr & Hd). by rewrite Hr, Hd.
    + apply lookup_ge_None_2. rewrite (inv_results _ _ _ _ I).
      by apply lookup_ge_None_1.
  - intros i fn Hfn. destruct (Hall i fn Hfn) as (o & _ & Hd). by rewrite Hd.
Qed.

Lemma run_is_map_without_cancellation_witness :
  [Filled (Success (VString "1")); Filled (Captured (VError "e2"));
   Filled (Success (VString "3"))]
  = (fun fn => slot_of (runTaskWithRetry never fn (retryAttempts (fresh 2 2))))
      <$> Examples.mixed /\
  forall i fn, Examples.mixed !! i = Some fn ->
    invocations Examples.mixed_done i
    = outcome_calls (runTaskWithRetry never fn (retryAttempts (fresh 2 2))).
Proof.
  apply (run_is_map_without_cancellation Examples.mixed (fresh 2 2)
           Examples.mixed_done).
  - reflexivity.
  - exists Examples.mixed_events. vm_compute. reflexivity.
  - vm_compute. reflexivity.
  - vm_compute. reflexivity.
Defined.

(** ** A task that succeeds in the end, under cancellation *)

(** X15: what cancellation can do to a task that fails [K] times and then
    succeeds, [K] being within the retry budget.  Its record, once written,
    is the success after exactly [K + 1] invocations, or 'Task cancelled'
    after between 1 and [K] failed invocations, or 'Task cancelled via
    cancelAll()' when the task was never claimed.  A task that succeeds at
    once ([K = 0]) and has been started is therefore always recorded as
    a success, whenever [cancelAll()] is called. *)
Theorem success_despite_cancellation (ts : list task) (q q' : state)
    (i : nat) (fn : task) (K : nat) (v : value) (r : result) :
  idle q -> reachable (run ts q) q' -> ts !! i = Some fn ->
  fails_then_succeeds fn K v -> Z.of_nat K <= retryAttempts q ->
  results q' !! i = Some (Filled r) ->
  (r = Success v /\ invocations q' i = S K) \/
  (r = Captured (VError "Task cancelled") /\ aborted q' = true /\
     (1 <= invocations q' i <= K)%nat) \/
  (r = Captured (VError "Task cancelled via cancelAll()") /\
     aborted q' = true /\ invocations q' i = 0%nat /\
     (nextTaskIndex q' <= i)%nat).
Proof.
  intros Hidle Hreach Hfn [Hfail Hok] HK Hr.
  assert (Hrej : forall n, all_rejected fn n -> (n <= K)%nat).
  { intros n Hall. destruct (decide (n <= K)%nat) as [|Hgt]; [assumption|].
    destruct (Hall K ltac:(lia)) as [err Herr]. congruence. }
  destruct (index_status ts q q' i fn Hidle Hreach Hfn)
    as [(Hge & Hz & Hr' & Hab)|[(c & _ & _ & _ & Hnull & _)
       |(o & b & _ & Hlt & Hr' & Hb & Hrch)]].
  - do 2 right. destruct (resolveQueue q') as [| |rs] eqn:HP; try congruence.
    unfold cancelErr in Hr'. split_and!; [congruence|eauto|assumption..].
  - congruence.
  - apply reach_shape in Hrch. rewrite Hr' in Hr. injection Hr as <-.
    destruct o as [[v'|e]|err]; simpl in Hrch.
    + left. destruct Hrch as (Hn & _ & Hv & Hall).
      pose proof (Hrej _ Hall) as Hle.
      assert (pred (invocations q' i) = K) as HeqK.
      { destruct (decide (pred (invocations q' i) < K)%nat) as [Hl|]; [|lia].
        destruct (Hfail _ Hl) as [err Herr]. congruence. }
      rewrite HeqK in Hv. simpl. split; [congruence|lia].
    + destruct Hrch as [(_ & HR & _)|(Hn & HR & Hall & _)]; [lia|].
      pose proof (Hrej _ Hall). lia.
    + right. left. destruct Hrch as (-> & -> & Hn & _ & Hall).
      pose proof (Hrej _ Hall). simpl. split_and!; auto.
Qed.

Lemma success_despite_cancellation_witness :
  (Success (VString "a") = Success (VString "a") /\
   invocations Examples.cancelled_while_running 0 = 1%nat) \/
  (Success (VString "a") = Captured (VError "Task cancelled") /\
   aborted Examples.cancelled_while_running = true /\
   (1 <= invocations Examples.cancelled_while_running 0 <= 0)%nat) \/
  (Success (VString "a")
   = Captured (VError "Task cancelled via cancelAll()") /\
   aborted Examples.cancelled_while_running = true /\
   invocations Examples.cancelled_while_running 0 = 0%nat /\
   (nextTaskIndex Examples.cancelled_while_running <= 0)%nat).
Proof.
  apply (success_despite_cancellation
           [Examples.ok "a"; Examples.ok "b"; Examples.ok "c"] (fresh 1 3)
           Examples.cancelled_while_running 0 (Examples.ok "a") 0
           (VString "a") (Success (VString "a"))).
  - reflexivity.
  - exists [CancelAll; TaskSettles 0; Resumes 0]%nat. vm_compute. reflexivity.
  - reflexivity.
  - split; [intros k Hk; lia|reflexivity].
  - simpl. lia.
  - vm_compute. reflexivity.
Defined.

(** ** Using a queue again *)

(** X16: a queue whose run has resolved can be used again.  No call of
    the finished run is still suspended, and [run] on it gives the state
    [run] gives on a newly built queue with the same two settings: an earlier
    cancellation, the old results and the counters leave no trace. *)
Theorem rerun_like_fresh (ts ts' : list task) (q q' : state)
    (rs : list slot) :
  idle q -> reachable (run ts q) q' -> resolveQueue q' = Resolved rs ->
  idle q' /\
  run ts' q' = run ts' (fresh (maxAtSameTime q) (retryAttempts q)).
Proof.
  intros Hidle Hreach HP.
  pose proof (inv_reachable ts q q' Hidle Hreach) as I.
  destruct (inv_resolved _ _ _ _ I rs HP) as (_ & Hnil & _).
  split; [exact Hnil|].
  assert (E : reset ts' q'
              = reset ts' (fresh (maxAtSameTime q) (retryAttempts q))).
  { unfold reset. simpl.
    by rewrite Hnil, (inv_max _ _ _ _ I), (inv_retry _ _ _ _ I). }
  unfold run. by rewrite E.
Qed.

Lemma rerun_like_fresh_witness :
  idle Examples.both_cancelled /\
  run [Examples.ok "again"] Examples.both_cancelled
  = run [Examples.ok "again"]
      (fresh (maxAtSameTime (fresh 1 1)) (retryAttempts (fresh 1 1))).
Proof.
  apply (rerun_like_fresh [Examples.failing "x"; Examples.ok "b"]
           [Examples.ok "again"] (fresh 1 1) Examples.both_cancelled
           (results Examples.both_cancelled)).
  - reflexivity.
  - exists Examples.cancel_events. vm_compute. reflexivity.
  - vm_compute. reflexivity.
Defined.

(** ** Printing the results *)

(** X17: the line of example.js that maps the delivered records to what it
    prints never throws on the array a run delivers, whatever the order of
    events and cancellations: the output has one entry per task, the value of
    a success record and the message, a string, of a captured one. *)
Theorem output_order_defined (ts : list task) (q q' : state)
    (rs : list slot) :
  idle q -> reachable (run ts q) q' -> resolveQueue q' = Resolved rs ->
  exists vs, output_order rs = Some (Some <$> vs) /\
    length vs = length ts /\
    forall i x, vs !! i = Some x ->
      rs !! i = Some (Filled (Success x)) \/
      exists m, x = VString m /\ rs !! i = Some (Filled (Captured (VError m))).
Proof.
  intros Hidle Hreach HP.
  pose proof (inv_reachable ts q q' Hidle Hreach) as I.
  destruct (inv_resolved _ _ _ _ I rs HP) as (-> & Hnil & _).
  assert (Hfilled : forall i s, results q' !! i = Some s ->
            (exists x, s = Filled (Success x)) \/
            (exists m, s = Filled (Captured (VError m)))).
  { intros i s Hs. pose proof (lookup_lt_Some _ _ _ Hs) as Hi.
    rewrite (inv_results _ _ _ _ I) in Hi.
    assert (exists r, s = Filled r) as [r ->].
    { destruct (decide (i < nextTaskIndex q')%nat) as [Hlt|Hge].
      - destruct (inv_done _ _ _ _ I i Hlt) as [o Ho].
        { unfold in_flight. rewrite Hnil. apply not_elem_of_nil. }
        destruct (inv_log _ _ _ _ I i o Ho) as (_ & _ & Hr & _).
        exists (record_of o). congruence.
      - destruct (inv_unclaimed _ _ _ _ I i ltac:(lia)) as [_ Hr].
        rewrite HP in Hr. exists (Captured cancelErr). congruence. }
    destruct r as [x|e]; [left; eauto|right].
    destruct (written_captured_Error ts q q' i e Hidle Hreach Hs) as [m ->].
    eauto. }
  rewrite <- (inv_results _ _ _ _ I). clear HP Hnil.
  induction (results q') as [|s l IH]; [by exists []|].
  destruct IH as (vs & Hout & Hlen & Hvs).
  { intros i s' Hs'. apply (Hfilled (S i)). exact Hs'. }
  unfold output_order in *.
  destruct (Hfilled 0%nat s eq_refl) as [[x ->]|[m ->]].
  - exists (x :: vs). cbn. rewrite Hout. cbn.
    split_and!; [reflexivity|by rewrite Hlen|].
    intros [|i] y Hy; simpl in *; [left; congruence|by apply Hvs].
  - exists (VString m :: vs). cbn. rewrite Hout. cbn.
    split_and!; [reflexivity|by rewrite Hlen|].
    intros [|i] y Hy; simpl in *; [right; exists m; split; congruence|].
    by apply Hvs.
Qed.

Lemma output_order_defined_witness :
  exists vs, output_order (results Examples.both_cancelled)
             = Some (Some <$> vs) /\
    length vs = length [Examples.failing "x"; Examples.ok "b"] /\
    forall i x, vs !! i = Some x ->
      results Examples.both_cancelled !! i = Some (Filled (Success x)) \/
      exists m, x = VString m /\
        results Examples.both_cancelled !! i
        = Some (Filled (Captured (VError m))).
Proof.
  apply (output_order_defined [Examples.failing "x"; Examples.ok "b"]
           (fresh 1 1) Examples.both_cancelled).
  - reflexivity.
  - exists Examples.cancel_events. vm_compute. reflexivity.
  - vm_compute. reflexivity.
Defined.

(** ** Cancellation outside a backoff wait *)

(** X18: a cancellation hangs a run only through a backoff wait.  When
    [cancelAll()] is called while no chain waits in backoff, no chain waits
    in backoff ever after, and from every later state some sequence of
    chain steps, at most [2 * retryAttempts + 2] per task, resolves the
    promise. *)
Theorem cancel_outside_backoff_resolves (ts : list task) (q q1 q2 : state) :
  idle q -> 1 <= maxAtSameTime q -> reachable (run ts q) q1 ->
  none_in_backoff q1 -> reachable (cancelAll q1) q2 ->
  aborted q2 = true /\ none_in_backoff q2 /\
  exists evs q3 rs,
    (length evs <= length ts * (2 * Z.to_nat (retryAttempts q) + 2))%nat /\
    exec evs q2 = Some q3 /\ resolveQueue q3 = Resolved rs.
Proof.
  intros Hidle H1 Hreach K [evs Hexec].
  pose proof (inv_reachable ts q q1 Hidle Hreach) as I1.
  destruct (none_in_backoff_cancelAll ts _ _ q1 I1 K) as [Hab K'].
  pose proof (inv_cancelAll _ _ _ _ I1) as I1'.
  destruct (none_in_backoff_exec ts _ _ evs _ q2 I1' Hab K' Hexec)
    as [Hab2 K2].
  pose proof (inv_exec _ _ _ _ _ _ I1' Hexec) as I2.
  assert (Hreach2 : reachable (run ts q) q2).
  { eapply reachable_trans; [exact Hreach|].
    exists (CancelAll :: evs). exact Hexec. }
  split_and!; [assumption..|].
  pose proof (live_reachable ts q q2 Hidle H1 Hreach2) as L.
  destruct Hreach2 as [evs0 Hexec0].
  destruct (inv_run ts _ _ q eq_refl eq_refl Hidle) as [I0 _].
  pose proof (potential_exec _ _ _ _ _ _ I0 Hexec0) as Hpot.
  pose proof (potential_run ts q Hidle) as Hrun. unfold task_cost in Hrun.
  destruct (can_resolve ts (maxAtSameTime q) (retryAttempts q)
              (fun s => aborted s = true /\ none_in_backoff s))
    with (n := (length ts * (2 * Z.to_nat (retryAttempts q) + 2))%nat)
         (q := q2)
    as (evs' & q3 & rs & _ & Hlen & Hexec' & HR & _);
    [| |lia|assumption|assumption|by split|by exists evs', q3, rs].
  - intros ev s s' Is [Hs Ks] _ Hstep. split.
    + by destruct (aborted_step ev s s' Hs Hstep).
    + by eapply none_in_backoff_step.
  - intros s Is [Hs Ks] Ls HP. specialize (Ls HP).
    destruct (chains s) as [|c l] eqn:Hch; [done|].
    assert (Hc : c ∈ chains s) by (rewrite Hch; left).
    apply (chain_can_step ts _ _ s c Is Hc).
    intros (a & e & Hawait). exact (Ks c Hc a e None Hawait).
Qed.

Lemma cancel_outside_backoff_resolves_witness :
  aborted (cancelAll (run Examples.mixed (fresh 2 2))) = true /\
  none_in_backoff (cancelAll (run Examples.mixed (fresh 2 2))) /\
  exists evs q3 rs,
    (length evs
     <= length Examples.mixed * (2 * Z.to_nat (retryAttempts (fresh 2 2)) + 2))
      %nat /\
    exec evs (cancelAll (run Examples.mixed (fresh 2 2))) = Some q3 /\
    resolveQueue q3 = Resolved rs.
Proof.
  apply (cancel_outside_backoff_resolves Examples.mixed (fresh 2 2)
           (run Examples.mixed (fresh 2 2))).
  - reflexivity.
  - simpl. lia.
  - exists []. reflexivity.
  - intros c Hc a e t. vm_compute in Hc.
    apply elem_of_cons in Hc as [->|Hc]; [discriminate|].
    apply list_elem_of_singleton in Hc. subst c. discriminate.
  - exists []. reflexivity.
Defined.
